(** * number_to_midi.py: number notation to two-track MIDI

    A shallow embedding of [src/number_to_midi.py] and the proofs of its
    specification.  Python values are modelled as follows.

    - [int] is [Z] (unbounded).
    - [str] is a list of Unicode code points ([N]); literals are written
      with [py "..."].
    - the event dictionaries are records; the ['type'] key ranges over the
      three strings the program ever stores there.
    - [dict] used as a map is [gmap], [set] is [gset].
    - an exception is [None] in an [option]; [print] is modelled only where
      a property speaks about it. *)

From stdpp Require Import gmap list strings pretty.

Local Open Scope Z_scope.

(** ** Python strings *)

Definition char := N.
Definition str := list char.

Fixpoint py (s : string) : str :=
  match s with
  | EmptyString => []
  | String c s' => Ascii.N_of_ascii c :: py s'
  end.

(** [str.isspace] on one code point: the characters CPython's
    [_PyUnicode_IsWhitespace] accepts.  [strip] and [split] without
    arguments use the same test. *)
Definition isspace (c : char) : bool :=
  ((9 <=? c) && (c <=? 13) || (28 <=? c) && (c <=? 32) || (c =? 133)
   || (c =? 160) || (c =? 5760) || (8192 <=? c) && (c <=? 8202)
   || (c =? 8232) || (c =? 8233) || (c =? 8239) || (c =? 8287)
   || (c =? 12288))%N.

Fixpoint lstrip (s : str) : str :=
  match s with
  | [] => []
  | c :: s' => if isspace c then lstrip s' else s
  end.

Definition rstrip (s : str) : str := rev (lstrip (rev s)).

Definition strip (s : str) : str := rstrip (lstrip s).

(** Truth value of a string: non-empty. *)
Definition truthy {A} (l : list A) : bool :=
  match l with [] => false | _ :: _ => true end.

Definition slash : char := 47%N.

(** [s.startswith('/')] and [s.endswith('/')]. *)
Definition startswith_slash (s : str) : bool :=
  match s with c :: _ => (c =? slash)%N | [] => false end.

Definition endswith_slash (s : str) : bool :=
  match last s with Some c => (c =? slash)%N | None => false end.

(** [s.split(sep)] for a one-character separator. *)
Fixpoint split (sep : char) (s : str) : list str :=
  match s with
  | [] => [[]]
  | c :: s' =>
      if (c =? sep)%N then [] :: split sep s'
      else match split sep s' with
           | w :: ws => (c :: w) :: ws
           | [] => [[c]]
           end
  end.

(** [s.split()]: the maximal runs of non-whitespace characters.  [tok] is
    the current run, reversed. *)
Fixpoint split_ws_from (tok : str) (s : str) : list str :=
  match s with
  | [] => if truthy tok then [rev tok] else []
  | c :: s' =>
      if isspace c
      then (if truthy tok then rev tok :: split_ws_from [] s'
            else split_ws_from [] s')
      else split_ws_from (c :: tok) s'
  end.

Definition split_ws (s : str) : list str := split_ws_from [] s.

(** ** Configuration *)

Definition NUMBER_TO_MIDI_ITEMS : list (str * Z) :=
  [ (py "1", 41); (py "2", 43); (py "3", 48); (py "4", 50); (py "5", 52);
    (py "6", 53); (py "7", 55); (py "8", 57); (py "9", 58); (py "10", 59);
    (py "11", 60); (py "12", 61); (py "13", 62); (py "14", 63);
    (py "15", 64); (py "16", 65); (py "17", 66); (py "18", 67);
    (py "19", 68); (py "20", 69); (py "21", 70); (py "22", 71);
    (py "23", 72); (py "24", 73); (py "25", 74); (py "26", 75);
    (py "27", 76); (py "28", 77); (py "29", 79); (py "30", 81) ].

Definition NUMBER_TO_MIDI_MAP : gmap str Z := list_to_map NUMBER_TO_MIDI_ITEMS.

Definition TICKS_PER_8TH_NOTE : Z := 240.

(** ** number_to_midi *)

(** The line [number_to_midi] prints for a token outside the table. *)
Definition warning (num_str : str) : str :=
  py "Warning: Number '" ++ num_str ++ py "' is not in the 1-30 range. Skipping.".

(** The returned value together with the lines printed. *)
Definition number_to_midi_io (num_str : str) : option Z * list str :=
  let num_str := strip num_str in
  let midi_note := NUMBER_TO_MIDI_MAP !! num_str in
  match midi_note with
  | None => (midi_note, [warning num_str])
  | Some _ => (midi_note, [])
  end.

Definition number_to_midi (num_str : str) : option Z :=
  fst (number_to_midi_io num_str).

(** ** parse_number_string *)

Record ParsedEvent := { p_notes : list Z; p_duration : Z }.

(** [[number_to_midi(n) for n in slot_content.split()]] followed by
    [[n for n in notes if n is not None]]. *)
Definition notes_of_tokens (tokens : list str) : list Z :=
  omap id (map number_to_midi tokens).

Definition chord_notes (slot_content : str) : list Z :=
  notes_of_tokens (split_ws slot_content).

(** [slots[i]]; every use is guarded by [i < len(slots) - 1]. *)
Definition slot (slots : list str) (i : nat) : str := nth i slots [].

(** The inner [while]: count the empty slots from [j] on.  [None] when the
    fuel is used up. *)
Fixpoint lookahead (fuel : nat) (slots : list str) (j : nat)
    (duration_in_slots : Z) : option (nat * Z) :=
  match fuel with
  | O => None
  | S fuel' =>
      if (j <? length slots - 1)%nat && negb (truthy (strip (slot slots j)))
      then lookahead fuel' slots (j + 1)%nat (duration_in_slots + 1)
      else Some (j, duration_in_slots)
  end.

(** The outer [while], with [i] and [parsed_events] as its state. *)
Fixpoint parse_loop (fuel : nat) (slots : list str) (i : nat)
    (parsed_events : list ParsedEvent) : option (list ParsedEvent) :=
  match fuel with
  | O => None
  | S fuel' =>
      if (i <? length slots - 1)%nat then
        let slot_content := strip (slot slots i) in
        if truthy slot_content then
          let notes := chord_notes slot_content in
          match lookahead (length slots) slots (i + 1)%nat 1 with
          | None => None
          | Some (j, duration_in_slots) =>
              let parsed_events :=
                if truthy notes
                then parsed_events ++
                     [{| p_notes := notes; p_duration := duration_in_slots |}]
                else parsed_events in
              parse_loop fuel' slots j parsed_events
          end
        else parse_loop fuel' slots (i + 1)%nat parsed_events
      else Some parsed_events
  end.

(** The normalisation of the input and its slots. *)
Definition normalize (number_string : str) : str :=
  let s := strip number_string in
  let s := if startswith_slash s then s else slash :: s in
  if endswith_slash s then s else s ++ [slash].

Definition slots_of (number_string : str) : list str :=
  split slash (normalize number_string).

Definition parse_number_string (number_string : str)
    : option (list ParsedEvent) :=
  let slots := slots_of number_string in
  parse_loop (S (length slots)) slots 1 [].

(** ** validate_events_pre_creation *)

(** [parsed_events[i]]; every use is guarded by the range of the loop. *)
Definition event_at (parsed_events : list ParsedEvent) (i : nat) : ParsedEvent :=
  nth i parsed_events {| p_notes := []; p_duration := 0 |}.

(** [set(notes)]. *)
Definition set_of (notes : list Z) : gset Z := list_to_set notes.

(** The [for] loop over [range(len(parsed_events) - 1)]; [false] is the
    early [return False]. *)
Fixpoint pre_creation_loop (parsed_events : list ParsedEvent)
    (range : list nat) : bool :=
  match range with
  | [] => true
  | i :: range' =>
      if (p_duration (event_at parsed_events i) =? 1)
         && (p_duration (event_at parsed_events (i + 1)) =? 1)
      then
        if negb (bool_decide (set_of (p_notes (event_at parsed_events i))
                              ## set_of (p_notes (event_at parsed_events (i + 1)))))
        then false
        else pre_creation_loop parsed_events range'
      else pre_creation_loop parsed_events range'
  end.

Definition validate_events_pre_creation (parsed_events : list ParsedEvent)
    : bool :=
  pre_creation_loop parsed_events (seq 0 (length parsed_events - 1)).

(** ** MIDI messages and files (the part of mido the program uses) *)

Inductive MetaType := set_tempo (tempo : Z) | end_of_track.

Inductive Message :=
  | note_on (note velocity time : Z)
  | note_off (note velocity time : Z)
  | MetaMessage (type : MetaType) (time : Z).

Definition time (msg : Message) : Z :=
  match msg with
  | note_on _ _ t | note_off _ _ t | MetaMessage _ t => t
  end.

Definition MidiTrack := list Message.

Record MidiFile := { ticks_per_beat : Z; tracks : list MidiTrack }.

(** [mido.MidiFile()] without a [ticks_per_beat] argument. *)
Definition DEFAULT_TICKS_PER_BEAT : Z := 480.

(** [mido.bpm2tempo(150)], microseconds per beat. *)
Definition bpm2tempo (bpm : Z) : Z := 60000000 / bpm.

(** ** validate_midi_post_creation *)

(** The three variables of the replay of one track. *)
Record Replay := {
  notes_on : gmap Z Z;
  last_note_off_time : gmap Z Z;
  absolute_time : Z
}.

Definition replay_start : Replay :=
  {| notes_on := ∅; last_note_off_time := ∅; absolute_time := 0 |}.

(** [x < mid.ticks_per_beat / 2]: the division is Python's true division,
    and the comparison of an integer with the half-integer is exact. *)
Definition below_8th (ticks_per_beat x : Z) : bool := 2 * x <? ticks_per_beat.

(** The [note_off] branch of the replay. *)
Definition replay_off (tpb : Z) (note : Z) (st : Replay) : Replay :=
  match notes_on st !! note with
  | Some t_on =>
      let duration := absolute_time st - t_on in
      {| notes_on := delete note (notes_on st);
         last_note_off_time :=
           if below_8th tpb duration
           then <[note := absolute_time st]> (last_note_off_time st)
           else last_note_off_time st;
         absolute_time := absolute_time st |}
  | None => st
  end.

(** One message of the replay; [None] is the [return False]. *)
Definition replay_msg (tpb : Z) (st : Replay) (msg : Message) : option Replay :=
  let st := {| notes_on := notes_on st;
               last_note_off_time := last_note_off_time st;
               absolute_time := absolute_time st + time msg |} in
  match msg with
  | note_on note velocity _ =>
      if velocity >? 0 then
        let retriggered :=
          match last_note_off_time st !! note with
          | Some t_off => below_8th tpb (absolute_time st - t_off)
          | None => false
          end in
        if retriggered then None
        else Some {| notes_on := <[note := absolute_time st]> (notes_on st);
                     last_note_off_time := last_note_off_time st;
                     absolute_time := absolute_time st |}
      else if velocity =? 0 then Some (replay_off tpb note st)
      else Some st
  | note_off note _ _ => Some (replay_off tpb note st)
  | MetaMessage _ _ => Some st
  end.

Fixpoint replay_track (tpb : Z) (st : Replay) (track : MidiTrack)
    : option Replay :=
  match track with
  | [] => Some st
  | msg :: track' =>
      match replay_msg tpb st msg with
      | Some st' => replay_track tpb st' track'
      | None => None
      end
  end.

Fixpoint replay_tracks (tpb : Z) (tracks : list MidiTrack) : bool :=
  match tracks with
  | [] => true
  | track :: tracks' =>
      match replay_track tpb replay_start track with
      | Some _ => replay_tracks tpb tracks'
      | None => false
      end
  end.

(** [read] is the outcome of [mido.MidiFile(filename)]: [None] when it
    raises, which the [except] clause turns into [False]. *)
Definition validate_midi_post_creation (read : option MidiFile) : bool :=
  match read with
  | Some mid => replay_tracks (ticks_per_beat mid) (tracks mid)
  | None => false
  end.

(** ** create_midi_file *)

Inductive EventType := Note | Sustain | Rest.

#[global] Instance EventType_eq_dec : EqDecision EventType.
Proof. solve_decision. Defined.

(** The per-clef event dictionaries.  A ['rest'] dictionary has no
    ['notes'] key; it is written with [notes := []]. *)
Record Event := { type : EventType; notes : list Z; duration : Z }.

(** The body of the loop that fills [treble_events_raw] and
    [bass_events_raw]. *)
Definition split_event (raw : list Event * list Event) (event : ParsedEvent)
    : list Event * list Event :=
  let treble_notes := filter (λ note, 60 <= note) (p_notes event) in
  let bass_notes := filter (λ note, note < 60) (p_notes event) in
  let duration := p_duration event in
  (fst raw ++ [{| type := if truthy treble_notes then Note else Sustain;
                  notes := treble_notes; duration := duration |}],
   snd raw ++ [{| type := if truthy bass_notes then Note else Sustain;
                  notes := bass_notes; duration := duration |}]).

Definition split_events (parsed_events : list ParsedEvent)
    : list Event * list Event :=
  fold_left split_event parsed_events ([], []).

Definition treble_events_raw (parsed_events : list ParsedEvent) : list Event :=
  fst (split_events parsed_events).

Definition bass_events_raw (parsed_events : list ParsedEvent) : list Event :=
  snd (split_events parsed_events).

(** An event dictionary after [event['duration'] += d]. *)
Definition extended (d : Z) (e : Event) : Event :=
  {| type := type e; notes := notes e; duration := duration e + d |}.

(** [merged[-1]['duration'] += d]. *)
Definition extend_last (d : Z) (merged : list Event) : list Event :=
  alter (extended d) (length merged - 1)%nat merged.

(** The body of the loop of [merge_sustain_events]. *)
Definition merge_event (merged : list Event) (event : Event) : list Event :=
  match type event with
  | Note => merged ++ [event]
  | Sustain =>
      match last merged with
      | Some {| type := Note |} => extend_last (duration event) merged
      | _ => merged ++ [{| type := Rest; notes := []; duration := duration event |}]
      end
  | Rest => merged
  end.

Definition merge_sustain_events (raw_events : list Event) : list Event :=
  fold_left merge_event raw_events [].

(** The body of the loop of [write_track_from_final_events], on the track
    and [pending_delay]; [None] is the [IndexError] of [notes[0]]. *)
Definition write_event (st : MidiTrack * Z) (event : Event)
    : option (MidiTrack * Z) :=
  let '(track, pending_delay) := st in
  let duration_ticks := duration event * TICKS_PER_8TH_NOTE in
  match type event with
  | Note =>
      match notes event with
      | [] => None
      | first :: others =>
          let track := track ++ [note_on first 80 pending_delay] in
          let track := fold_left (λ tr note, tr ++ [note_on note 80 0]) others track in
          let pending_delay := 0 in
          let track := track ++ [note_off first 80 duration_ticks] in
          let track := fold_left (λ tr note, tr ++ [note_off note 80 0]) others track in
          Some (track, pending_delay)
      end
  | Rest => Some (track, pending_delay + duration_ticks)
  | Sustain => Some (track, pending_delay)
  end.

Fixpoint write_events (st : MidiTrack * Z) (final_events : list Event)
    : option (MidiTrack * Z) :=
  match final_events with
  | [] => Some st
  | event :: final_events' =>
      match write_event st event with
      | Some st' => write_events st' final_events'
      | None => None
      end
  end.

Definition write_track_from_final_events (track : MidiTrack)
    (final_events : list Event) : option MidiTrack :=
  fst <$> write_events (track, 0) final_events.

(** The [MidiFile] object that [create_midi_file] saves.  The
    [ticks_per_beat] argument is never handed to [mido.MidiFile], so the
    file has mido's default resolution. *)
Definition create_midi_file (parsed_events : list ParsedEvent)
    (ticks_per_beat : Z) : option MidiFile :=
  let track_treble := [MetaMessage (set_tempo (bpm2tempo 150)) 0] in
  let track_bass := [] in
  let final_treble_events := merge_sustain_events (treble_events_raw parsed_events) in
  let final_bass_events := merge_sustain_events (bass_events_raw parsed_events) in
  match write_track_from_final_events track_treble final_treble_events with
  | None => None
  | Some track_treble =>
      match write_track_from_final_events track_bass final_bass_events with
      | None => None
      | Some track_bass =>
          Some {| ticks_per_beat := DEFAULT_TICKS_PER_BEAT;
                  tracks := [track_treble; track_bass] |}
      end
  end.

(** What [mido.MidiFile(filename)] returns for a file written by
    [mid.save(filename)]: the same resolution and messages, each track
    closed by the [end_of_track] marker that [save] adds. *)
Definition saved (mid : MidiFile) : MidiFile :=
  {| ticks_per_beat := ticks_per_beat mid;
     tracks := map (λ track, track ++ [MetaMessage end_of_track 0]) (tracks mid) |}.

(** * Specification *)

(** ** The pitch table *)

(** The degree string of [k]: its decimal numeral. *)
Definition degree (k : nat) : str := py (pretty k).

(** The tabulated pitches, in the order of the degrees 1 to 30. *)
Definition PITCHES : list Z :=
  [41; 43; 48; 50; 52; 53; 55; 57; 58; 59; 60; 61; 62; 63; 64; 65; 66; 67;
   68; 69; 70; 71; 72; 73; 74; 75; 76; 77; 79; 81].


(** ** Pre-validation *)

(** The test of the loop body at index [i]. *)
Definition unison_at (parsed_events : list ParsedEvent) (i : nat) : Prop :=
  p_duration (event_at parsed_events i) = 1 /\
  p_duration (event_at parsed_events (i + 1)) = 1 /\
  ¬ (set_of (p_notes (event_at parsed_events i))
     ## set_of (p_notes (event_at parsed_events (i + 1)))).

(** ** Per-clef events *)

(** The sum of the durations of a sequence of events. *)
Definition total_duration (events : list Event) : Z :=
  foldr (λ e acc, duration e + acc) 0 events.

(** A raw per-clef event: what the splitting loop appends. *)
Definition raw_event (e : Event) : Prop := type e = Note \/ type e = Sustain.

(** A merged per-clef event: a rest, or a note with at least one pitch. *)
Definition merged_event (e : Event) : Prop :=
  type e = Rest \/ (type e = Note /\ notes e <> []).

(** The rest that a sustain without a note to extend turns into. *)
Definition rest_of (e : Event) : Event :=
  {| type := Rest; notes := []; duration := duration e |}.

(** The treble and the bass subset of a chord, in written order. *)
Definition treble_of (pitches : list Z) : list Z := filter (λ p, 60 <= p) pitches.
Definition bass_of (pitches : list Z) : list Z := filter (λ p, p < 60) pitches.

(** A sustain of [d] slots, as the splitting loop writes it. *)
Definition sustain_for (d : Z) : Event :=
  {| type := Sustain; notes := []; duration := d |}.

(** ** Track encoder, as specified *)

(** The note-ons of a chord: the first pitch carries the pending delay, the
    others follow with delay 0. *)
Definition chord_on (pending : Z) (pitches : list Z) : list Message :=
  match pitches with
  | [] => []
  | first :: others =>
      note_on first 80 pending :: map (λ p, note_on p 80 0) others
  end.

(** The note-offs of a chord: the first pitch after [ticks], the others
    with delay 0. *)
Definition chord_off (ticks : Z) (pitches : list Z) : list Message :=
  match pitches with
  | [] => []
  | first :: others =>
      note_off first 80 ticks :: map (λ p, note_off p 80 0) others
  end.

(** The messages of a merged sequence, with the pending delay as an
    accumulator: a rest adds its ticks to it and emits nothing; a note emits
    its note-ons, resets it, and emits its note-offs. *)
Fixpoint encode (atomicSlotTicks pending : Z) (events : list Event)
    : list Message :=
  match events with
  | [] => []
  | e :: events' =>
      match type e with
      | Note =>
          chord_on pending (notes e)
          ++ chord_off (duration e * atomicSlotTicks) (notes e)
          ++ encode atomicSlotTicks 0 events'
      | Rest =>
          encode atomicSlotTicks (pending + duration e * atomicSlotTicks) events'
      | Sustain => encode atomicSlotTicks pending events'
      end
  end.

(** The pending delay left after a merged sequence. *)
Fixpoint pending_after (atomicSlotTicks pending : Z) (events : list Event) : Z :=
  match events with
  | [] => pending
  | e :: events' =>
      match type e with
      | Note => pending_after atomicSlotTicks 0 events'
      | Rest =>
          pending_after atomicSlotTicks
            (pending + duration e * atomicSlotTicks) events'
      | Sustain => pending_after atomicSlotTicks pending events'
      end
  end.

(** ** Replaying delta-times *)

(** The ticks a sequence of messages spans: the sum of its delta-times. *)
Definition sum_time (msgs : list Message) : Z :=
  foldr (λ msg acc, time msg + acc) 0 msgs.

(** A message stamped with another time. *)
Definition at_time (t : Z) (msg : Message) : Message :=
  match msg with
  | note_on note velocity _ => note_on note velocity t
  | note_off note velocity _ => note_off note velocity t
  | MetaMessage type _ => MetaMessage type t
  end.

(** The messages of a track stamped with their absolute times, the clock
    starting at [clock]. *)
Fixpoint absolute (clock : Z) (msgs : list Message) : list Message :=
  match msgs with
  | [] => []
  | msg :: msgs' =>
      at_time (clock + time msg) msg :: absolute (clock + time msg) msgs'
  end.

(** ** Decoder, as specified *)

(** A whitespace-only slot (the empty slot included). *)
Definition whitespace_only (s : str) : bool := forallb isspace s.

(** The longest prefix whose elements all satisfy [f]. *)
Fixpoint take_while {A} (f : A -> bool) (l : list A) : list A :=
  match l with
  | [] => []
  | x :: l' => if f x then x :: take_while f l' else []
  end.

(** The slots after slot [i].  The last element of the split is what
    follows the closing delimiter, and is no slot. *)
Definition following (slots : list str) (i : nat) : list str :=
  drop (S i) (take (length slots - 1) slots).

(** The number of consecutive whitespace-only slots immediately following
    slot [i]. *)
Definition trailing_empty (slots : list str) (i : nat) : nat :=
  length (take_while whitespace_only (following slots i)).

(** Slot [k] is one of the empty slots consumed by the chord of slot [i]. *)
Definition owns (slots : list str) (i k : nat) : Prop :=
  (i < k <= i + trailing_empty slots i)%nat.

(** The event of the chord in slot [i]. *)
Definition decoded_at (slots : list str) (i : nat) : ParsedEvent :=
  {| p_notes := chord_notes (strip (slot slots i));
     p_duration := 1 + Z.of_nat (trailing_empty slots i) |}.

(** Slot [i] holds a chord with at least one valid pitch. *)
Definition chord_slot (slots : list str) (i : nat) : bool :=
  negb (whitespace_only (slot slots i))
  && truthy (chord_notes (strip (slot slots i))).

(** The decoded events: one per chord slot, in slot order. *)
Definition decoded (slots : list str) : list ParsedEvent :=
  map (decoded_at slots)
      (filter (λ i, chord_slot slots i = true) (seq 1 (length slots - 2))).

(** ** Post-validation, as specified *)

(** A note-on of [pitch]: a [note_on] message with a positive velocity. *)
Definition is_on (pitch : Z) (msg : Message) : Prop :=
  match msg with
  | note_on note velocity _ => note = pitch /\ 0 < velocity
  | _ => False
  end.

(** A note-off of [pitch]: a [note_off] message, or a [note_on] message
    with velocity 0. *)
Definition is_off (pitch : Z) (msg : Message) : Prop :=
  match msg with
  | note_off note _ _ => note = pitch
  | note_on note velocity _ => note = pitch /\ velocity = 0
  | MetaMessage _ _ => False
  end.

Definition touches (pitch : Z) (msg : Message) : Prop :=
  is_on pitch msg \/ is_off pitch msg.

(** After the messages [played], [pitch] is sounding since the absolute
    time [t_on]: its latest note-on or note-off is a note-on, at [t_on]. *)
Definition sounding_since (pitch : Z) (played : list Message) (t_on : Z) : Prop :=
  exists (pre : list Message) (on : Message) (held : list Message),
    played = pre ++ on :: held /\ is_on pitch on /\
    Forall (λ msg, ¬ touches pitch msg) held /\
    t_on = sum_time (pre ++ [on]).

(** Among the messages [played] there is a note-off of [pitch] at the
    absolute time [t_off] that ends a note held for less than half a beat. *)
Definition short_release (ticks_per_beat pitch : Z) (played : list Message)
    (t_off : Z) : Prop :=
  exists (pre : list Message) (off : Message) (post : list Message) (t_on : Z),
    played = pre ++ off :: post /\ is_off pitch off /\
    sounding_since pitch pre t_on /\
    t_off = sum_time (pre ++ [off]) /\
    2 * (t_off - t_on) < ticks_per_beat.

(** A note-on of the track comes less than half a beat after a prior
    short-held note-off of its pitch. *)
Definition retrigger (ticks_per_beat : Z) (track : MidiTrack) : Prop :=
  exists (pitch : Z) (pre : list Message) (on : Message) (post : list Message)
         (t_off : Z),
    track = pre ++ on :: post /\ is_on pitch on /\
    short_release ticks_per_beat pitch pre t_off /\
    2 * (sum_time (pre ++ [on]) - t_off) < ticks_per_beat.

(** The replay state after the clock has advanced by [dt]. *)
Definition advanced (dt : Z) (st : Replay) : Replay :=
  {| notes_on := notes_on st;
     last_note_off_time := last_note_off_time st;
     absolute_time := absolute_time st + dt |}.

(** What the replay state knows after the messages [played]. *)
Record replay_inv (tpb : Z) (played : list Message) (st : Replay) : Prop := {
  inv_clock : absolute_time st = sum_time played;
  inv_on : forall p t, notes_on st !! p = Some t <-> sounding_since p played t;
  inv_off : forall p t,
    last_note_off_time st !! p = Some t -> short_release tpb p played t;
  inv_last : forall p t,
    short_release tpb p played t ->
    exists t', last_note_off_time st !! p = Some t' /\ t <= t';
  inv_past : forall p t,
    last_note_off_time st !! p = Some t -> t <= absolute_time st
}.

(** ** The encoder's output under the replay *)

(** No short-held release has been recorded, and no note started later than
    [hold] ticks before the clock. *)
Definition quiet (hold : Z) (st : Replay) : Prop :=
  last_note_off_time st = ∅ /\
  forall p t, notes_on st !! p = Some t -> t + hold <= absolute_time st.

(** A raw per-clef event as the splitting loop writes it for a decoded
    event: a sustain, or a note with at least one pitch, of at least one
    slot. *)
Definition split_event_ok (e : Event) : Prop :=
  1 <= duration e /\ (type e = Sustain \/ (type e = Note /\ notes e <> [])).

(** A merged per-clef event of at least one slot. *)
Definition final_event_ok (e : Event) : Prop :=
  merged_event e /\ 1 <= duration e.

(** * Further definitions *)

(** ** The inverse table of validate_events_pre_creation *)

(** [{v: k for k, v in NUMBER_TO_MIDI_MAP.items()}]: the items are visited
    in insertion order and a later item overwrites an earlier one. *)
Definition MIDI_TO_NUMBER_MAP : gmap Z str :=
  fold_left (λ (m : gmap Z str) (item : str * Z), <[item.2 := item.1]> m)
            NUMBER_TO_MIDI_ITEMS ∅.

(** ** main *)

(** How a run of [main] ends. *)
Inductive Outcome :=
  | InputNotFound
  | EmptyInput
  | PreValidationFailed
  | Written (mid : MidiFile) (post_ok : bool)
  | UnexpectedError.

(** [input] is the content of the input file, [None] when opening it
    raises [FileNotFoundError].  [InputNotFound] and [UnexpectedError] are
    the two [except] clauses, [EmptyInput] and [PreValidationFailed] the two
    early returns, which write no file.  [Written mid post_ok] is a run that
    saves [mid]; post-validation reads the saved file back, and [post_ok]
    tells whether it passed (when it is [false] the run prints that the
    created file has issues).  The loops of the decoder are bounded, so a
    decoder out of fuel is reported as [UnexpectedError]. *)
Definition main (input : option str) : Outcome :=
  match input with
  | None => InputNotFound
  | Some number_content =>
      if negb (truthy (strip number_content)) then EmptyInput
      else
        match parse_number_string number_content with
        | None => UnexpectedError
        | Some parsed_events =>
            if negb (validate_events_pre_creation parsed_events)
            then PreValidationFailed
            else
              match create_midi_file parsed_events 480 with
              | None => UnexpectedError
              | Some mid =>
                  Written mid
                    (validate_midi_post_creation (Some (saved mid)))
              end
        end
  end.

(** ** Further notions for the properties below *)

(** The sum of the durations of decoded events. *)
Definition parsed_duration (parsed_events : list ParsedEvent) : Z :=
  foldr (λ e acc, p_duration e + acc) 0 parsed_events.




(** All the pitches of a sequence of per-clef events, in order. *)
Definition event_pitches (events : list Event) : list Z :=
  concat (map notes events).

(** Two adjacent events that the pre-validation rejects: both last one
    slot and they share a pitch. *)
Definition clash (a b : ParsedEvent) : bool :=
  (p_duration a =? 1) && (p_duration b =? 1)
  && negb (bool_decide (set_of (p_notes a) ## set_of (p_notes b))).

(** No two neighbours of the list clash. *)
Fixpoint adjacent_ok (parsed_events : list ParsedEvent) : bool :=
  match parsed_events with
  | [] => true
  | a :: rest =>
      match rest with
      | [] => true
      | b :: _ => negb (clash a b) && adjacent_ok rest
      end
  end.

(** A raw per-clef event as the splitting loop writes it, whatever its
    duration: a note with at least one pitch, or a sustain without pitch. *)
Definition clef_event (e : Event) : Prop :=
  (type e = Note /\ notes e <> []) \/ (type e = Sustain /\ notes e = []).

(** The chords of a per-clef sequence: the pitch lists of its notes. *)
Definition chords (events : list Event) : list (list Z) :=
  map notes (filter (λ e, type e = Note) events).

(** * Proofs *)

Lemma table_keys : NUMBER_TO_MIDI_ITEMS.*1 = map degree (seq 1 30).
Proof. vm_compute. reflexivity. Qed.

Lemma table_values : NUMBER_TO_MIDI_ITEMS.*2 = PITCHES.
Proof. reflexivity. Qed.

Lemma table_lookup (k : nat) :
  (1 <= k <= 30)%nat ->
  NUMBER_TO_MIDI_MAP !! degree k = Some (nth (k - 1) PITCHES 0).
Proof.
  intros [Hlo Hhi].
  do 31 (destruct k as [|k]; [first [lia | vm_compute; reflexivity]|]).
  lia.
Qed.

Lemma table_miss (s : str) :
  (forall k : nat, (1 <= k <= 30)%nat -> s <> degree k) ->
  NUMBER_TO_MIDI_MAP !! s = None.
Proof.
  intros Hs. apply not_elem_of_list_to_map_1.
  rewrite table_keys. intros Hin.
  apply list_elem_of_fmap in Hin as (k & -> & Hk).
  apply elem_of_seq in Hk. apply (Hs k); [lia | reflexivity].
Qed.

(** ** number_to_midi *)

Arguments NUMBER_TO_MIDI_MAP : simpl never.
Arguments number_to_midi_io : simpl never.
Arguments number_to_midi : simpl never.

Lemma notes_of_tokens_app (l1 l2 : list str) :
  notes_of_tokens (l1 ++ l2) = notes_of_tokens l1 ++ notes_of_tokens l2.
Proof. unfold notes_of_tokens. by rewrite map_app, omap_app. Qed.

Lemma notes_of_tokens_cons (token : str) (tokens : list str) :
  notes_of_tokens (token :: tokens)
  = match number_to_midi token with
    | Some pitch => pitch :: notes_of_tokens tokens
    | None => notes_of_tokens tokens
    end.
Proof. unfold notes_of_tokens. cbn [map omap]. by destruct (number_to_midi token). Qed.

(** C10: the table is the thirty degree strings "1".."30" paired in order
    with the tabulated pitches; a token that strips to the degree string of
    [k] is looked up to the [k]-th tabulated pitch and nothing is printed;
    a token that strips to no degree string yields no pitch and prints the
    warning; a token without a pitch contributes nothing to its chord. *)
Theorem number_to_midi_table :
  NUMBER_TO_MIDI_ITEMS = zip (map degree (seq 1 30)) PITCHES /\
  (forall (k : nat) (s : str),
     (1 <= k <= 30)%nat -> strip s = degree k ->
     number_to_midi_io s = (Some (nth (k - 1) PITCHES 0), [])) /\
  (forall s : str,
     (forall k : nat, (1 <= k <= 30)%nat -> strip s <> degree k) ->
     number_to_midi_io s = (None, [warning (strip s)])) /\
  (forall (before after : list str) (token : str),
     number_to_midi token = None ->
     notes_of_tokens (before ++ token :: after)
     = notes_of_tokens (before ++ after)).
Proof.
  split; [by vm_compute|]. split; [|split].
  - intros k s Hk Hs. unfold number_to_midi_io.
    rewrite Hs, (table_lookup k Hk). reflexivity.
  - intros s Hs. unfold number_to_midi_io.
    rewrite (table_miss _ Hs). reflexivity.
  - intros before after token Htok.
    rewrite !notes_of_tokens_app.
    rewrite (notes_of_tokens_cons token after), Htok. reflexivity.
Qed.

Lemma number_to_midi_table_witness :
  number_to_midi_io (py " 11 ") = (Some 60, []) /\
  number_to_midi_io (py "31") = (None, [warning (py "31")]) /\
  notes_of_tokens [py "1"; py "x"; py "2"] = notes_of_tokens [py "1"; py "2"].
Proof.
  destruct number_to_midi_table as (_ & Hhit & Hmiss & Hdrop).
  split; [|split].
  - apply (Hhit 11%nat (py " 11 ")); [lia | by vm_compute].
  - apply (Hmiss (py "31")). intros k Hk.
    do 31 (destruct k as [|k]; [first [lia | by vm_compute]|]). lia.
  - apply (Hdrop [py "1"] [py "2"] (py "x")). by vm_compute.
Defined.

(** ** validate_events_pre_creation *)

Lemma pre_creation_loop_false (parsed_events : list ParsedEvent) (range : list nat) :
  pre_creation_loop parsed_events range = false <->
  exists i, i ∈ range /\ unison_at parsed_events i.
Proof.
  induction range as [|i range IH]; simpl.
  - split; [done|]. intros (i & Hi & _). by apply elem_of_nil in Hi.
  - assert ((exists j, j ∈ i :: range /\ unison_at parsed_events j) <->
            unison_at parsed_events i \/
            exists j, j ∈ range /\ unison_at parsed_events j) as ->.
    { split.
      - intros (j & Hj & Hu). apply elem_of_cons in Hj as [->|Hj]; eauto.
      - intros [Hu|(j & Hj & Hu)]; [exists i | exists j];
          (split; [|done]); [left | by right]. }
    unfold unison_at at 1.
    destruct (Z.eqb_spec (p_duration (event_at parsed_events i)) 1) as [Ha|Ha];
      destruct (Z.eqb_spec (p_duration (event_at parsed_events (i + 1))) 1)
        as [Hb|Hb]; simpl.
    1: destruct (bool_decide_reflect
                   (set_of (p_notes (event_at parsed_events i))
                    ## set_of (p_notes (event_at parsed_events (i + 1)))))
         as [Hd|Hd]; simpl.
    2: tauto.
    all: rewrite IH; tauto.
Qed.

Lemma not_disjoint_set_of (l1 l2 : list Z) :
  ¬ (set_of l1 ## set_of l2) <-> exists pitch, pitch ∈ l1 /\ pitch ∈ l2.
Proof.
  unfold set_of. split.
  - intros Hnd. destruct (decide (Exists (λ p, p ∈ l2) l1)) as [Hex|Hno].
    + by apply Exists_exists in Hex.
    + exfalso. apply Hnd. intros p Hp1 Hp2.
      apply elem_of_list_to_set in Hp1, Hp2. apply Hno.
      apply Exists_exists. by exists p.
  - intros (p & Hp1 & Hp2) Hd. apply (Hd p); by apply elem_of_list_to_set.
Qed.

Lemma event_at_lookup (parsed_events : list ParsedEvent) (i : nat) e :
  parsed_events !! i = Some e -> event_at parsed_events i = e.
Proof. intros H. unfold event_at. by apply nth_lookup_Some with (d := {| p_notes := []; p_duration := 0 |}) in H. Qed.

(** C6: pre-validation fails exactly when two adjacent events both have
    duration 1 and share a pitch; it fails on two adjacent 8th notes of
    pitch 60 and succeeds when the first of them has duration 2. *)
Theorem validate_events_pre_creation_spec :
  (forall parsed_events : list ParsedEvent,
     validate_events_pre_creation parsed_events = false <->
     exists (i : nat) (a b : ParsedEvent),
       parsed_events !! i = Some a /\ parsed_events !! (i + 1)%nat = Some b /\
       p_duration a = 1 /\ p_duration b = 1 /\
       exists pitch, pitch ∈ p_notes a /\ pitch ∈ p_notes b) /\
  validate_events_pre_creation
    [{| p_notes := [60]; p_duration := 1 |};
     {| p_notes := [60]; p_duration := 1 |}] = false /\
  validate_events_pre_creation
    [{| p_notes := [60]; p_duration := 2 |};
     {| p_notes := [60]; p_duration := 1 |}] = true.
Proof.
  split; [|split; by vm_compute].
  intros parsed_events. unfold validate_events_pre_creation.
  rewrite pre_creation_loop_false. split.
  - intros (i & Hi & Ha & Hb & Hnd). apply elem_of_seq in Hi.
    destruct (lookup_lt_is_Some_2 parsed_events i) as [a Hia]; [lia|].
    destruct (lookup_lt_is_Some_2 parsed_events (i + 1)) as [b Hib]; [lia|].
    rewrite (event_at_lookup _ _ _ Hia) in Ha, Hnd.
    rewrite (event_at_lookup _ _ _ Hib) in Hb, Hnd.
    exists i, a, b. by rewrite <- not_disjoint_set_of.
  - intros (i & a & b & Hia & Hib & Ha & Hb & Hp).
    exists i. split.
    + apply elem_of_seq. apply lookup_lt_Some in Hib. lia.
    + unfold unison_at.
      rewrite (event_at_lookup _ _ _ Hia), (event_at_lookup _ _ _ Hib).
      by rewrite not_disjoint_set_of.
Qed.

Lemma validate_events_pre_creation_spec_witness :
  exists (i : nat) (a b : ParsedEvent),
    [{| p_notes := [60]; p_duration := 1 |};
     {| p_notes := [60]; p_duration := 1 |}] !! i = Some a /\
    [{| p_notes := [60]; p_duration := 1 |};
     {| p_notes := [60]; p_duration := 1 |}] !! (i + 1)%nat = Some b /\
    p_duration a = 1 /\ p_duration b = 1 /\
    exists pitch, pitch ∈ p_notes a /\ pitch ∈ p_notes b.
Proof.
  apply (proj1 (proj1 validate_events_pre_creation_spec
                  [{| p_notes := [60]; p_duration := 1 |};
                   {| p_notes := [60]; p_duration := 1 |}])).
  vm_compute. reflexivity.
Defined.

(** ** Clef splitting *)

Lemma split_events_snoc (parsed_events : list ParsedEvent) (event : ParsedEvent) :
  split_events (parsed_events ++ [event])
  = split_event (split_events parsed_events) event.
Proof. unfold split_events. by rewrite fold_left_app. Qed.

Lemma split_events_length (parsed_events : list ParsedEvent) :
  length (treble_events_raw parsed_events) = length parsed_events /\
  length (bass_events_raw parsed_events) = length parsed_events.
Proof.
  unfold treble_events_raw, bass_events_raw.
  induction parsed_events as [|event parsed_events IH] using rev_ind; [done|].
  rewrite split_events_snoc. simpl. rewrite !length_app. simpl. lia.
Qed.

Lemma split_events_lookup (parsed_events : list ParsedEvent) (i : nat) (e : ParsedEvent) :
  parsed_events !! i = Some e ->
  treble_events_raw parsed_events !! i
  = Some {| type := if truthy (treble_of (p_notes e)) then Note else Sustain;
            notes := treble_of (p_notes e); duration := p_duration e |} /\
  bass_events_raw parsed_events !! i
  = Some {| type := if truthy (bass_of (p_notes e)) then Note else Sustain;
            notes := bass_of (p_notes e); duration := p_duration e |}.
Proof.
  unfold treble_events_raw, bass_events_raw.
  induction parsed_events as [|event parsed_events IH] using rev_ind; [done|].
  intros Hi. rewrite split_events_snoc. simpl.
  pose proof (split_events_length parsed_events) as [Ht Hb].
  unfold treble_events_raw, bass_events_raw in Ht, Hb.
  destruct (decide (i < length parsed_events)%nat) as [Hlt|Hge].
  - rewrite lookup_app_l in Hi by done.
    rewrite !lookup_app_l by lia. by apply IH.
  - assert (i = length parsed_events) as ->.
    { apply lookup_lt_Some in Hi. rewrite length_app in Hi. simpl in Hi. lia. }
    rewrite list_lookup_middle in Hi by done. injection Hi as ->.
    rewrite !list_lookup_middle by done. done.
Qed.

Lemma truthy_true {A} (l : list A) : truthy l = true <-> l <> [].
Proof. by destruct l. Qed.

(** C9: each decoded event yields one raw event per clef with its duration,
    so both raw sequences have the length of the decoded one and agree with
    it index by index; the treble event carries the pitches that are at
    least 60, the pitch of degree "11", the bass event those below 60, both
    in written order; the raw event is a note exactly when its subset is
    not empty, and a sustain otherwise; the chord [55, 65] splits into
    bass [55] and treble [65]. *)
Theorem clef_splitting :
  (forall parsed_events : list ParsedEvent,
     length (treble_events_raw parsed_events) = length parsed_events /\
     length (bass_events_raw parsed_events) = length parsed_events /\
     forall (i : nat) (e : ParsedEvent),
       parsed_events !! i = Some e ->
       exists treble bass : Event,
         treble_events_raw parsed_events !! i = Some treble /\
         bass_events_raw parsed_events !! i = Some bass /\
         duration treble = p_duration e /\ duration bass = p_duration e /\
         notes treble = treble_of (p_notes e) /\
         notes bass = bass_of (p_notes e) /\
         (type treble = Note <-> notes treble <> []) /\
         (type bass = Note <-> notes bass <> []) /\
         raw_event treble /\ raw_event bass) /\
  (forall (pitches : list Z) (p : Z),
     (p ∈ treble_of pitches <-> p ∈ pitches /\ 60 <= p) /\
     (p ∈ bass_of pitches <-> p ∈ pitches /\ p < 60) /\
     treble_of pitches `sublist_of` pitches /\
     bass_of pitches `sublist_of` pitches) /\
  number_to_midi (py "11") = Some 60 /\
  treble_of [55; 65] = [65] /\ bass_of [55; 65] = [55].
Proof.
  split; [|split; [|by vm_compute]].
  2: { intros pitches p. unfold treble_of, bass_of.
       rewrite !list_elem_of_filter.
       repeat split; try tauto; apply sublist_filter. }
  intros parsed_events.
  destruct (split_events_length parsed_events) as [Ht Hb].
  split; [done|]. split; [done|].
  intros i e Hi.
  destruct (split_events_lookup _ _ _ Hi) as [Hti Hbi].
  eexists _, _. split; [exact Hti|]. split; [exact Hbi|]. simpl.
  do 4 (split; [reflexivity|]).
  unfold raw_event. simpl.
  destruct (treble_of (p_notes e)), (bass_of (p_notes e)); simpl;
    repeat split; intros; try done; auto.
Qed.

Lemma clef_splitting_witness :
  exists treble bass : Event,
    treble_events_raw [{| p_notes := [55; 65]; p_duration := 1 |}] !! 0%nat
    = Some treble /\
    bass_events_raw [{| p_notes := [55; 65]; p_duration := 1 |}] !! 0%nat
    = Some bass /\
    duration treble = 1 /\ duration bass = 1 /\
    notes treble = [65] /\ notes bass = [55] /\
    (type treble = Note <-> notes treble <> []) /\
    (type bass = Note <-> notes bass <> []) /\
    raw_event treble /\ raw_event bass.
Proof.
  destruct clef_splitting as [Hsplit _].
  destruct (Hsplit [{| p_notes := [55; 65]; p_duration := 1 |}])
    as (_ & _ & Hat).
  apply (Hat 0%nat {| p_notes := [55; 65]; p_duration := 1 |}).
  reflexivity.
Defined.

(** ** Sustain merging *)

Lemma merge_snoc (raw_events : list Event) (event : Event) :
  merge_sustain_events (raw_events ++ [event])
  = merge_event (merge_sustain_events raw_events) event.
Proof. unfold merge_sustain_events. by rewrite fold_left_app. Qed.

Lemma extend_last_snoc (d : Z) (merged : list Event) (m : Event) :
  extend_last d (merged ++ [m]) = merged ++ [extended d m].
Proof.
  unfold extend_last. rewrite length_app. simpl.
  rewrite alter_app_r_alt by lia.
  replace (length merged + 1 - 1 - length merged)%nat with 0%nat by lia.
  reflexivity.
Qed.

Lemma merge_event_sustain_note (merged : list Event) (m s : Event) :
  type s = Sustain -> type m = Note ->
  merge_event (merged ++ [m]) s = merged ++ [extended (duration s) m].
Proof.
  intros Hs Hm. unfold merge_event. rewrite Hs, last_snoc.
  destruct m as [ty ns d]; simpl in Hm; subst ty.
  apply extend_last_snoc.
Qed.

Lemma merge_event_sustain_rest (merged : list Event) (m s : Event) :
  type s = Sustain -> type m <> Note ->
  merge_event (merged ++ [m]) s = merged ++ [m] ++ [rest_of s].
Proof.
  intros Hs Hm. unfold merge_event. rewrite Hs, last_snoc.
  destruct m as [[] ns d]; simpl in Hm; try done; by rewrite <- app_assoc.
Qed.

Lemma merge_event_sustain_first (s : Event) :
  type s = Sustain -> merge_event [] s = [rest_of s].
Proof. intros Hs. unfold merge_event. by rewrite Hs. Qed.

Lemma merge_event_note (merged : list Event) (n : Event) :
  type n = Note -> merge_event merged n = merged ++ [n].
Proof. intros Hn. unfold merge_event. by rewrite Hn. Qed.

(** What is already merged in front of a non-empty tail is not touched. *)
Lemma merge_event_frame (front merged : list Event) (event : Event) :
  merged <> [] ->
  merge_event (front ++ merged) event = front ++ merge_event merged event
  /\ merge_event merged event <> [].
Proof.
  intros Hne.
  destruct (decide (merged = [])) as [|_]; [done|].
  assert (exists ms m, merged = ms ++ [m]) as (ms & m & ->).
  { destruct (last merged) as [m|] eqn:Hl.
    - apply last_Some in Hl as [ms ->]. eauto.
    - apply last_None in Hl. done. }
  unfold merge_event. rewrite app_assoc, !last_snoc.
  destruct (type event).
  - rewrite <- !app_assoc. split; [done|]. by destruct ms.
  - destruct m as [[] ns d]; rewrite <- ?app_assoc;
      rewrite ?extend_last_snoc, ?(app_assoc front ms), ?extend_last_snoc,
        <- ?app_assoc;
      (split; [done | by destruct ms]).
  - rewrite <- !app_assoc. split; [done|]. by destruct ms.
Qed.

Lemma merge_fold_frame (raw front merged : list Event) :
  merged <> [] ->
  fold_left merge_event raw (front ++ merged)
  = front ++ fold_left merge_event raw merged.
Proof.
  revert merged. induction raw as [|event raw IH]; intros merged Hne; [done|].
  simpl. destruct (merge_event_frame front merged event Hne) as [-> Hne'].
  by apply IH.
Qed.

Lemma total_duration_app (l1 l2 : list Event) :
  total_duration (l1 ++ l2) = total_duration l1 + total_duration l2.
Proof.
  unfold total_duration. induction l1 as [|e l1 IH]; simpl; [done|].
  rewrite IH. lia.
Qed.

Lemma total_duration_snoc (l : list Event) (e : Event) :
  total_duration (l ++ [e]) = total_duration l + duration e.
Proof. rewrite total_duration_app. unfold total_duration. simpl. lia. Qed.

Lemma snoc_or_nil {A} (l : list A) : l = [] \/ exists l' x, l = l' ++ [x].
Proof.
  destruct (last l) as [x|] eqn:Hl.
  - apply last_Some in Hl as [l' ->]. eauto.
  - apply last_None in Hl. auto.
Qed.

Lemma merge_leading_sustains (sustains tail : list Event) :
  Forall (λ s, type s = Sustain) sustains ->
  fold_left merge_event tail (merge_sustain_events sustains)
  = merge_sustain_events (sustains ++ tail) /\
  merge_sustain_events sustains = map rest_of sustains.
Proof.
  intros Hs. split.
  - unfold merge_sustain_events. by rewrite fold_left_app.
  - induction sustains as [|s sustains IH] using rev_ind; [done|].
    apply Forall_app in Hs as [Hall Hs]. rewrite Forall_singleton in Hs.
    rewrite merge_snoc, (IH Hall), map_app. simpl.
    destruct (snoc_or_nil sustains) as [->|(ss & s' & ->)].
    + by apply merge_event_sustain_first.
    + rewrite map_app. simpl.
      rewrite (merge_event_sustain_rest _ (rest_of s') s Hs) by done.
      by rewrite <- app_assoc.
Qed.

(** C3, the claim at two leading sustains of 1 and 2 slots: the merged
    sequence is two rests of 1 and 2 slots, and not one leading rest of 3
    slots followed by no further rest. *)
Lemma sustain_merging_counterexample :
  merge_sustain_events [sustain_for 1; sustain_for 2]
  = [rest_of (sustain_for 1); rest_of (sustain_for 2)] /\
  ¬ (exists (r : Event) (tail : list Event),
       merge_sustain_events [sustain_for 1; sustain_for 2] = r :: tail /\
       type r = Rest /\ duration r = 1 + 2 /\
       Forall (λ e, type e <> Rest) tail).
Proof.
  split; [reflexivity|].
  intros (r & tail & Heq & _ & Hd & _).
  injection Heq as <- _. simpl in Hd. lia.
Qed.

(** C3, as the code has it: a sustain whose immediately preceding merged
    event is a note extends that note's duration by its own; a sustain with
    no merged event before it, or with a rest before it, appends a rest of
    its own duration; so a clef sequence that begins with [n] sustains
    yields [n] leading rests, one per sustain and with its duration, in
    front of the merge of what follows when that begins with a note or is
    empty. *)
Theorem sustain_merging :
  (forall (raw : list Event) (s : Event),
     type s = Sustain ->
     (forall (merged : list Event) (n : Event),
        merge_sustain_events raw = merged ++ [n] -> type n = Note ->
        merge_sustain_events (raw ++ [s])
        = merged ++ [extended (duration s) n]) /\
     (forall (merged : list Event) (r : Event),
        merge_sustain_events raw = merged ++ [r] -> type r <> Note ->
        merge_sustain_events (raw ++ [s])
        = merged ++ [r] ++ [rest_of s]) /\
     (merge_sustain_events raw = [] ->
      merge_sustain_events (raw ++ [s]) = [rest_of s])) /\
  (forall (sustains tail : list Event),
     Forall (λ s, type s = Sustain) sustains ->
     (tail = [] \/ exists n tail', tail = n :: tail' /\ type n = Note) ->
     merge_sustain_events (sustains ++ tail)
     = map rest_of sustains ++ merge_sustain_events tail /\
     total_duration (map rest_of sustains) = total_duration sustains).
Proof.
  split.
  - intros raw s Hs. rewrite merge_snoc. split; [|split].
    + intros merged n -> Hn. by apply merge_event_sustain_note.
    + intros merged r -> Hr. by apply merge_event_sustain_rest.
    + intros ->. by apply merge_event_sustain_first.
  - intros sustains tail Hs Htail. split.
    + destruct (merge_leading_sustains sustains tail Hs) as [<- ->].
      destruct Htail as [->|(n & tail' & -> & Hn)].
      * simpl. by rewrite app_nil_r.
      * simpl. rewrite (merge_event_note _ n Hn).
        rewrite merge_fold_frame by done.
        unfold merge_sustain_events at 1. simpl.
        by rewrite (merge_event_note _ n Hn).
    + clear Htail. induction Hs as [|s sustains Hs Hall IH]; [done|].
      unfold total_duration in *. simpl. by rewrite IH.
Qed.

Lemma sustain_merging_witness :
  merge_sustain_events
    ([{| type := Note; notes := [60]; duration := 1 |}] ++ [sustain_for 2])
  = [] ++ [extended 2 {| type := Note; notes := [60]; duration := 1 |}] /\
  merge_sustain_events
    ([sustain_for 1; sustain_for 2]
     ++ [{| type := Note; notes := [60]; duration := 1 |}])
  = map rest_of [sustain_for 1; sustain_for 2]
    ++ merge_sustain_events [{| type := Note; notes := [60]; duration := 1 |}].
Proof.
  destruct sustain_merging as [Hstep Hlead]. split.
  - destruct (Hstep [{| type := Note; notes := [60]; duration := 1 |}]
                (sustain_for 2) eq_refl) as (Hnote & _ & _).
    apply (Hnote [] {| type := Note; notes := [60]; duration := 1 |});
      reflexivity.
  - apply (Hlead [sustain_for 1; sustain_for 2]
             [{| type := Note; notes := [60]; duration := 1 |}]).
    + repeat constructor.
    + right. eexists _, _. split; reflexivity.
Defined.

(** C4: merging keeps the sum of the durations of a raw per-clef sequence
    and yields at most as many events as the sequence has. *)
Theorem merge_duration_preserving (raw : list Event) :
  Forall raw_event raw ->
  total_duration (merge_sustain_events raw) = total_duration raw /\
  (length (merge_sustain_events raw) <= length raw)%nat.
Proof.
  induction raw as [|event raw IH] using rev_ind; [done|].
  intros Hraw. apply Forall_app in Hraw as [Hall Hev].
  rewrite Forall_singleton in Hev. destruct (IH Hall) as [IHd IHl].
  rewrite merge_snoc, total_duration_snoc, length_app. simpl.
  destruct Hev as [Hn|Hs].
  - rewrite (merge_event_note _ _ Hn), total_duration_snoc, length_app.
    simpl. lia.
  - destruct (snoc_or_nil (merge_sustain_events raw)) as [He|(ms & m & He)];
      rewrite He in *.
    + rewrite (merge_event_sustain_first _ Hs). unfold total_duration in *.
      simpl in *. lia.
    + destruct (decide (type m = Note)) as [Hm|Hm].
      * rewrite (merge_event_sustain_note _ _ _ Hs Hm).
        rewrite total_duration_snoc in *. rewrite length_app in *.
        simpl in *. lia.
      * rewrite (merge_event_sustain_rest _ _ _ Hs Hm).
        rewrite app_assoc, total_duration_snoc, !length_app.
        rewrite length_app in IHl. simpl in *. lia.
Qed.

Lemma merge_duration_preserving_witness :
  total_duration
    (merge_sustain_events
       [sustain_for 1; {| type := Note; notes := [60]; duration := 1 |};
        sustain_for 2])
  = 4 /\
  Nat.le
    (length
       (merge_sustain_events
          [sustain_for 1; {| type := Note; notes := [60]; duration := 1 |};
           sustain_for 2])) 3.
Proof.
  apply (merge_duration_preserving
           [sustain_for 1; {| type := Note; notes := [60]; duration := 1 |};
            sustain_for 2]).
  apply Forall_cons_2; [right; reflexivity|].
  apply Forall_cons_2; [left; reflexivity|].
  apply Forall_cons_2; [right; reflexivity|].
  apply Forall_nil_2.
Defined.

(** ** Track encoder *)

Lemma fold_append {A B} (f : A -> B) (l : list A) (track : list B) :
  fold_left (λ tr x, tr ++ [f x]) l track = track ++ map f l.
Proof.
  revert track. induction l as [|x l IH]; intros track; simpl.
  - by rewrite app_nil_r.
  - rewrite IH. by rewrite <- app_assoc.
Qed.

Lemma write_event_note (track : MidiTrack) (pending : Z) (e : Event) :
  type e = Note -> notes e <> [] ->
  write_event (track, pending) e
  = Some (track ++ chord_on pending (notes e)
                ++ chord_off (duration e * TICKS_PER_8TH_NOTE) (notes e), 0).
Proof.
  intros Ht Hn. unfold write_event. rewrite Ht.
  destruct (notes e) as [|first others]; [done|].
  rewrite !fold_append. simpl. f_equal. f_equal.
  rewrite <- !app_assoc. simpl. done.
Qed.

Lemma write_event_rest (track : MidiTrack) (pending : Z) (e : Event) :
  type e = Rest ->
  write_event (track, pending) e
  = Some (track, pending + duration e * TICKS_PER_8TH_NOTE).
Proof. intros Ht. unfold write_event. by rewrite Ht. Qed.

(** The loop of the encoder emits what the specification lists. *)
Lemma write_events_encode (events : list Event) (track : MidiTrack) (pending : Z) :
  Forall merged_event events ->
  write_events (track, pending) events
  = Some (track ++ encode TICKS_PER_8TH_NOTE pending events,
          pending_after TICKS_PER_8TH_NOTE pending events).
Proof.
  intros Hm. revert track pending.
  induction Hm as [|e events He Hall IH]; intros track pending;
    cbn [write_events encode pending_after].
  - by rewrite app_nil_r.
  - destruct He as [Hr|[Hn Hne]].
    + rewrite (write_event_rest _ _ _ Hr), Hr. apply IH.
    + rewrite (write_event_note _ _ _ Hn Hne), Hn, IH.
      by rewrite <- !app_assoc.
Qed.

Lemma write_track_encode (events : list Event) (track : MidiTrack) :
  Forall merged_event events ->
  write_track_from_final_events track events
  = Some (track ++ encode TICKS_PER_8TH_NOTE 0 events).
Proof.
  intros Hm. unfold write_track_from_final_events.
  by rewrite (write_events_encode _ _ _ Hm).
Qed.

(** C2: on a merged sequence the encoder, started with the pending delay
    0, appends to the track exactly the messages of the specification: a
    rest emits nothing and adds [duration * 240] to the pending delay; a
    note emits a note-on of its first pitch with the pending delay, a
    note-on with delay 0 for each other pitch in chord order, a note-off of
    the first pitch with delay [duration * 240] and a note-off with delay 0
    for each other pitch in the same order, and resets the pending delay. *)
Theorem track_encoder_messages (track : MidiTrack) (events : list Event) :
  Forall merged_event events ->
  TICKS_PER_8TH_NOTE = 240 /\
  write_track_from_final_events track events
  = Some (track ++ encode 240 0 events).
Proof. intros Hm. split; [done|]. by apply write_track_encode. Qed.

Lemma track_encoder_messages_witness :
  TICKS_PER_8TH_NOTE = 240 /\
  write_track_from_final_events []
    [{| type := Rest; notes := []; duration := 2 |};
     {| type := Note; notes := [60; 64]; duration := 3 |}]
  = Some ([] ++ encode 240 0
            [{| type := Rest; notes := []; duration := 2 |};
             {| type := Note; notes := [60; 64]; duration := 3 |}]).
Proof.
  apply (track_encoder_messages []
           [{| type := Rest; notes := []; duration := 2 |};
            {| type := Note; notes := [60; 64]; duration := 3 |}]).
  apply Forall_cons_2; [left; reflexivity|].
  apply Forall_cons_2; [right; split; [reflexivity | discriminate]|].
  apply Forall_nil_2.
Defined.

(** ** Round-trip timing *)

Lemma sum_time_app (l1 l2 : list Message) :
  sum_time (l1 ++ l2) = sum_time l1 + sum_time l2.
Proof.
  unfold sum_time. induction l1 as [|m l1 IH]; simpl; [done|].
  rewrite IH. lia.
Qed.

Lemma absolute_app (clock : Z) (l1 l2 : list Message) :
  absolute clock (l1 ++ l2)
  = absolute clock l1 ++ absolute (clock + sum_time l1) l2.
Proof.
  revert clock. induction l1 as [|m l1 IH]; intros clock; simpl.
  - unfold sum_time. simpl. by rewrite Z.add_0_r.
  - rewrite IH. do 3 f_equal. unfold sum_time. simpl. lia.
Qed.

Lemma absolute_simultaneous (clock : Z) (f : Z -> Z -> Message) (pitches : list Z) :
  (forall p t, time (f p t) = t) ->
  (forall p t t', at_time t' (f p t) = f p t') ->
  absolute clock (map (λ p, f p 0) pitches) = map (λ p, f p clock) pitches
  /\ sum_time (map (λ p, f p 0) pitches) = 0.
Proof.
  intros Htime Hat. induction pitches as [|p pitches [IH1 IH2]]; [done|].
  unfold sum_time in *. simpl.
  rewrite Htime, Hat, Z.add_0_r, IH1, IH2. done.
Qed.

Lemma absolute_chord_on (clock pending : Z) (pitches : list Z) :
  absolute clock (chord_on pending pitches)
  = map (λ p, note_on p 80 (clock + pending)) pitches /\
  (pitches <> [] -> sum_time (chord_on pending pitches) = pending).
Proof.
  destruct pitches as [|first others]; [done|]. simpl.
  destruct (absolute_simultaneous (clock + pending) (λ p t, note_on p 80 t)
              others) as [-> Hs]; [done..|].
  split; [done|]. intros _. unfold sum_time in *. simpl. rewrite Hs. lia.
Qed.

Lemma absolute_chord_off (clock ticks : Z) (pitches : list Z) :
  absolute clock (chord_off ticks pitches)
  = map (λ p, note_off p 80 (clock + ticks)) pitches /\
  (pitches <> [] -> sum_time (chord_off ticks pitches) = ticks).
Proof.
  destruct pitches as [|first others]; [done|]. simpl.
  destruct (absolute_simultaneous (clock + ticks) (λ p t, note_off p 80 t)
              others) as [-> Hs]; [done..|].
  split; [done|]. intros _. unfold sum_time in *. simpl. rewrite Hs. lia.
Qed.

Lemma encode_app (ticks pending : Z) (l1 l2 : list Event) :
  encode ticks pending (l1 ++ l2)
  = encode ticks pending l1 ++ encode ticks (pending_after ticks pending l1) l2.
Proof.
  revert pending. induction l1 as [|e l1 IH]; intros pending; simpl; [done|].
  destruct (type e); rewrite IH; by rewrite <- ?app_assoc.
Qed.

(** The ticks emitted and the delay still pending add up to the duration
    of the events encoded. *)
Lemma encode_elapsed (pending : Z) (events : list Event) :
  Forall merged_event events ->
  sum_time (encode 240 pending events) + pending_after 240 pending events
  = pending + 240 * total_duration events.
Proof.
  intros Hm. revert pending.
  induction Hm as [|e events He Hall IH]; intros pending; simpl.
  - unfold sum_time, total_duration. simpl. lia.
  - unfold total_duration in *. simpl.
    destruct He as [Hr|[Hn Hne]].
    + rewrite Hr, IH. lia.
    + rewrite Hn, !sum_time_app, Z.add_assoc.
      rewrite (proj2 (absolute_chord_on 0 pending (notes e)) Hne).
      rewrite (proj2 (absolute_chord_off 0 (duration e * 240) (notes e)) Hne).
      specialize (IH 0). lia.
Qed.

(** C1: replaying the messages the encoder writes for a merged sequence
    and summing their delta-times, the note-ons of every note event, one per
    pitch of the chord and in chord order, fall at 240 times the sum of the
    durations of the events before it, and its note-offs at that onset plus
    [duration * 240]; they follow the messages of the events before it. *)
Theorem round_trip_timing (events : list Event) :
  Forall merged_event events ->
  exists msgs : MidiTrack,
    write_track_from_final_events [] events = Some msgs /\
    forall (before after : list Event) (e : Event),
      events = before ++ e :: after -> type e = Note ->
      exists msgs_before msgs_after : MidiTrack,
        write_track_from_final_events [] before = Some msgs_before /\
        absolute 0 msgs
        = absolute 0 msgs_before
          ++ map (λ p, note_on p 80 (240 * total_duration before)) (notes e)
          ++ map (λ p, note_off p 80
                         (240 * total_duration before + duration e * 240))
                 (notes e)
          ++ msgs_after.
Proof.
  intros Hm. exists (encode 240 0 events).
  split; [by rewrite write_track_encode|].
  intros before after e -> Hn.
  apply Forall_app in Hm as [Hb He]. apply Forall_cons in He as [He Ha].
  exists (encode 240 0 before). eexists.
  split; [by rewrite write_track_encode|].
  rewrite encode_app. cbn [encode]. rewrite Hn.
  rewrite absolute_app. f_equal.
  pose proof (encode_elapsed 0 before Hb) as Hclock.
  destruct He as [Hr|[_ Hne]]; [congruence|].
  rewrite !absolute_app.
  rewrite (proj2 (absolute_chord_on 0 (pending_after 240 0 before) (notes e))
             Hne).
  rewrite (proj1 (absolute_chord_on (0 + sum_time (encode 240 0 before))
                    (pending_after 240 0 before) (notes e))).
  rewrite (proj1 (absolute_chord_off
                    (0 + sum_time (encode 240 0 before)
                     + pending_after 240 0 before)
                    (duration e * 240) (notes e))).
  replace (0 + sum_time (encode 240 0 before) + pending_after 240 0 before)
    with (240 * total_duration before) by lia.
  reflexivity.
Qed.

Lemma round_trip_timing_witness :
  exists msgs : MidiTrack,
    write_track_from_final_events []
      [{| type := Rest; notes := []; duration := 2 |};
       {| type := Note; notes := [60; 64]; duration := 3 |}] = Some msgs /\
    forall (before after : list Event) (e : Event),
      [{| type := Rest; notes := []; duration := 2 |};
       {| type := Note; notes := [60; 64]; duration := 3 |}]
      = before ++ e :: after -> type e = Note ->
      exists msgs_before msgs_after : MidiTrack,
        write_track_from_final_events [] before = Some msgs_before /\
        absolute 0 msgs
        = absolute 0 msgs_before
          ++ map (λ p, note_on p 80 (240 * total_duration before)) (notes e)
          ++ map (λ p, note_off p 80
                         (240 * total_duration before + duration e * 240))
                 (notes e)
          ++ msgs_after.
Proof.
  apply (round_trip_timing
           [{| type := Rest; notes := []; duration := 2 |};
            {| type := Note; notes := [60; 64]; duration := 3 |}]).
  apply Forall_cons_2; [left; reflexivity|].
  apply Forall_cons_2; [right; split; [reflexivity | discriminate]|].
  apply Forall_nil_2.
Defined.

(** ** Notation decoder *)

Lemma lstrip_nil (s : str) : lstrip s = [] <-> whitespace_only s = true.
Proof.
  unfold whitespace_only. induction s as [|c s IH]; simpl; [done|].
  destruct (isspace c); simpl; [done|]. split; discriminate.
Qed.

Lemma lstrip_whitespace_only (s : str) :
  whitespace_only (lstrip s) = whitespace_only s.
Proof.
  unfold whitespace_only. induction s as [|c s IH]; simpl; [done|].
  destruct (isspace c) eqn:Hc; simpl; [done|]. by rewrite Hc.
Qed.

Lemma whitespace_only_rev (s : str) :
  whitespace_only (rev s) = whitespace_only s.
Proof.
  unfold whitespace_only. induction s as [|c s IH]; simpl; [done|].
  rewrite forallb_app, IH. simpl. destruct (isspace c), (forallb isspace s); done.
Qed.

(** The truth value of a stripped slot tells whether it is whitespace-only. *)
Lemma truthy_strip (s : str) : truthy (strip s) = negb (whitespace_only s).
Proof.
  destruct (whitespace_only s) eqn:Hw; simpl.
  - unfold strip, rstrip. apply lstrip_nil in Hw. by rewrite Hw.
  - destruct (strip s) eqn:Hs; [|done]. exfalso.
    unfold strip, rstrip in Hs.
    assert (lstrip (rev (lstrip s)) = []) as Hl.
    { destruct (lstrip (rev (lstrip s))) as [|c l]; [done|].
      simpl in Hs. apply (f_equal length) in Hs.
      rewrite length_app in Hs. simpl in Hs. lia. }
    apply lstrip_nil in Hl.
    rewrite whitespace_only_rev, lstrip_whitespace_only in Hl. congruence.
Qed.

Lemma following_cons (slots : list str) (j : nat) :
  (j < length slots - 1)%nat ->
  drop j (take (length slots - 1) slots)
  = slot slots j :: drop (S j) (take (length slots - 1) slots).
Proof.
  intros Hj. apply drop_S.
  rewrite lookup_take_lt by done. unfold slot.
  destruct (lookup_lt_is_Some_2 slots j) as [x Hx]; [lia|].
  rewrite Hx. f_equal. symmetry. by apply nth_lookup_Some.
Qed.

Lemma take_while_length {A} (f : A -> bool) (l : list A) :
  (length (take_while f l) <= length l)%nat.
Proof. induction l as [|x l IH]; simpl; [done|]. destruct (f x); simpl; lia. Qed.

Lemma take_while_lookup {A} (f : A -> bool) (l : list A) (k : nat) :
  (k < length (take_while f l))%nat ->
  exists x, l !! k = Some x /\ f x = true.
Proof.
  revert k. induction l as [|x l IH]; intros k; simpl; [lia|].
  destruct (f x) eqn:Hx; simpl; [|lia].
  destruct k as [|k]; [eauto|]. intros Hk. apply IH. lia.
Qed.

Lemma trailing_empty_bound (slots : list str) (i : nat) :
  (i < length slots - 1)%nat ->
  (i + 1 + trailing_empty slots i <= length slots - 1)%nat.
Proof.
  intros Hi. unfold trailing_empty.
  pose proof (take_while_length whitespace_only (following slots i)) as Hl.
  unfold following in Hl at 2. rewrite length_drop, length_take in Hl. lia.
Qed.

(** The slots a chord consumes are whitespace-only slots. *)
Lemma owns_whitespace_only (slots : list str) (i k : nat) :
  owns slots i k ->
  whitespace_only (slot slots k) = true /\ (k < length slots - 1)%nat.
Proof.
  intros [Hlo Hhi]. unfold trailing_empty in Hhi.
  destruct (take_while_lookup whitespace_only (following slots i) (k - i - 1))
    as (x & Hx & Hw); [lia|].
  unfold following in Hx. rewrite lookup_drop in Hx.
  replace (S i + (k - i - 1))%nat with k in Hx by lia.
  apply lookup_take_Some in Hx as [Hx Hk].
  split; [|done].
  assert (slot slots k = x) as -> by (by apply nth_lookup_Some).
  done.
Qed.

Lemma lookahead_run (fuel : nat) (slots : list str) (j : nat) (d : Z) :
  (length slots - 1 - j < fuel)%nat ->
  lookahead fuel slots j d
  = Some ((j + length (take_while whitespace_only
                         (drop j (take (length slots - 1) slots))))%nat,
          d + Z.of_nat (length (take_while whitespace_only
                                  (drop j (take (length slots - 1) slots))))).
Proof.
  revert j d. induction fuel as [|fuel IH]; intros j d Hfuel; [lia|].
  cbn [lookahead]. rewrite truthy_strip, negb_involutive.
  destruct (j <? length slots - 1)%nat eqn:Hj; simpl.
  - apply Nat.ltb_lt in Hj. rewrite (following_cons _ _ Hj). simpl.
    destruct (whitespace_only (slot slots j)); simpl.
    + rewrite IH by lia. replace (j + 1)%nat with (S j) by lia.
      f_equal. f_equal; lia.
    + f_equal. f_equal; lia.
  - apply Nat.ltb_ge in Hj. rewrite drop_ge by (rewrite length_take; lia).
    simpl. f_equal. f_equal; lia.
Qed.

Lemma filter_none {A} (P : A -> Prop) `{!forall x, Decision (P x)} (l : list A) :
  (forall x, x ∈ l -> ¬ P x) -> filter P l = [].
Proof.
  induction l as [|x l IH]; intros Hl; [done|].
  rewrite filter_cons_False by (apply Hl; left).
  apply IH. intros y Hy. apply Hl. by right.
Qed.

(** The loop of the decoder, from slot [i] on. *)
Lemma parse_loop_decoded (fuel : nat) (slots : list str) (i : nat)
    (parsed_events : list ParsedEvent) :
  (length slots - 1 - i < fuel)%nat ->
  parse_loop fuel slots i parsed_events
  = Some (parsed_events
          ++ map (decoded_at slots)
               (filter (λ i, chord_slot slots i = true)
                  (seq i (length slots - 1 - i)))).
Proof.
  revert i parsed_events.
  induction fuel as [|fuel IH]; intros i parsed_events Hfuel; [lia|].
  cbn [parse_loop].
  destruct (i <? length slots - 1)%nat eqn:Hi.
  2: { apply Nat.ltb_ge in Hi.
       replace (length slots - 1 - i)%nat with 0%nat by lia.
       simpl. by rewrite app_nil_r. }
  apply Nat.ltb_lt in Hi. cbv zeta. rewrite truthy_strip.
  destruct (whitespace_only (slot slots i)) eqn:Hw; simpl negb; cbv iota.
  - rewrite IH by lia.
    replace (length slots - 1 - i)%nat with (S (length slots - 1 - (i + 1)))
      by lia.
    cbn [seq]. rewrite filter_cons_False.
    2: { unfold chord_slot. rewrite Hw. simpl. discriminate. }
    by replace (S i) with (i + 1)%nat by lia.
  - rewrite lookahead_run by lia.
    replace (i + 1)%nat with (S i) by lia.
    fold (following slots i). fold (trailing_empty slots i).
    pose proof (trailing_empty_bound slots i Hi) as Hrun.
    rewrite IH by lia.
    replace (length slots - 1 - i)%nat
      with (1 + (trailing_empty slots i
                 + (length slots - 1 - (S i + trailing_empty slots i))))%nat
      by lia.
    rewrite seq_app, (seq_app (trailing_empty slots i)), !filter_app.
    rewrite (filter_none _ (seq (i + 1) _)).
    2: { intros k Hk Hc. apply elem_of_seq in Hk.
         destruct (owns_whitespace_only slots i k) as [Hwk _];
           [unfold owns; lia|].
         unfold chord_slot in Hc. rewrite Hwk in Hc. done. }
    replace (i + 1 + trailing_empty slots i)%nat
      with (S i + trailing_empty slots i)%nat by lia.
    simpl seq. rewrite app_nil_l.
    destruct (truthy (chord_notes (strip (slot slots i)))) eqn:Hn.
    + rewrite filter_cons_True by (unfold chord_slot; by rewrite Hw, Hn).
      rewrite filter_nil. simpl. by rewrite <- app_assoc.
    + rewrite filter_cons_False
        by (unfold chord_slot; rewrite Hw, Hn; simpl; discriminate).
      rewrite filter_nil. done.
Qed.

(** The decoder returns, and returns the decoded events of its slots. *)
Lemma parse_number_string_decoded (text : str) :
  parse_number_string text = Some (decoded (slots_of text)).
Proof.
  unfold parse_number_string. cbv zeta.
  rewrite parse_loop_decoded by lia. unfold decoded. simpl app.
  by replace (length (slots_of text) - 1 - 1)%nat
    with (length (slots_of text) - 2)%nat by lia.
Qed.

(** C5: the decoder returns, for every text, one event per slot that holds
    a chord with a valid pitch, in slot order, whose duration is 1 plus the
    number of consecutive whitespace-only slots immediately following its
    slot; the slots a chord consumes are whitespace-only, and a slot is
    consumed by at most one chord; "/1//2/" decodes to pitch(1) with
    duration 2 followed by pitch(2) with duration 1. *)
Theorem decoder_duration_lookahead :
  (forall text : str,
     parse_number_string text = Some (decoded (slots_of text))) /\
  (forall (slots : list str) (i : nat),
     p_duration (decoded_at slots i)
     = 1 + Z.of_nat (length (take_while whitespace_only (following slots i)))) /\
  (forall (slots : list str) (i k : nat),
     owns slots i k -> whitespace_only (slot slots k) = true) /\
  (forall (slots : list str) (i i' k : nat),
     whitespace_only (slot slots i) = false ->
     whitespace_only (slot slots i') = false ->
     owns slots i k -> owns slots i' k -> i = i') /\
  number_to_midi (py "1") = Some 41 /\
  number_to_midi (py "2") = Some 43 /\
  parse_number_string (py "/1//2/")
  = Some [{| p_notes := [41]; p_duration := 2 |};
          {| p_notes := [43]; p_duration := 1 |}].
Proof.
  split; [exact parse_number_string_decoded|].
  split; [done|].
  split; [intros slots i k Hk; by apply (owns_whitespace_only slots i k)|].
  split; [|by vm_compute].
  intros slots i i' k Hi Hi' Hk Hk'.
  destruct (Nat.lt_trichotomy i i') as [Hlt|[->|Hgt]]; [|done|]; exfalso.
  - destruct (owns_whitespace_only slots i i') as [Hw _];
      [unfold owns in *; lia | congruence].
  - destruct (owns_whitespace_only slots i' i) as [Hw _];
      [unfold owns in *; lia | congruence].
Qed.

Lemma decoder_duration_lookahead_witness :
  whitespace_only (slot (slots_of (py "/1//2/")) 2) = true /\
  (1 = 1)%nat.
Proof.
  destruct decoder_duration_lookahead as (_ & _ & Hblank & Hone & _).
  split.
  - apply (Hblank (slots_of (py "/1//2/")) 1%nat 2%nat). vm_compute. lia.
  - apply (Hone (slots_of (py "/1//2/")) 1%nat 1%nat 2%nat);
      [reflexivity | reflexivity | vm_compute; lia | vm_compute; lia].
Defined.

(** ** Post-validation *)

Lemma sum_time_snoc (l : list Message) (m : Message) :
  sum_time (l ++ [m]) = sum_time l + time m.
Proof. rewrite sum_time_app. unfold sum_time. simpl. lia. Qed.

Lemma snoc_eq_inv {A} (l1 l2 : list A) (x y : A) (l3 : list A) :
  l1 ++ [x] = l2 ++ y :: l3 ->
  (l3 = [] /\ l1 = l2 /\ x = y) \/
  exists l3', l3 = l3' ++ [x] /\ l1 = l2 ++ y :: l3'.
Proof.
  intros Heq. destruct (snoc_or_nil l3) as [->|(l3' & z & ->)].
  - left. apply app_inj_tail in Heq as [-> ->]. done.
  - right. exists l3'.
    change (l2 ++ y :: l3' ++ [z]) with (l2 ++ (y :: l3') ++ [z]) in Heq.
    rewrite app_assoc in Heq. apply app_inj_tail in Heq as [-> ->]. done.
Qed.

Lemma sounding_since_snoc (p : Z) (played : list Message) (m : Message) (t : Z) :
  sounding_since p (played ++ [m]) t <->
  (is_on p m /\ t = sum_time (played ++ [m])) \/
  (¬ touches p m /\ sounding_since p played t).
Proof.
  split.
  - intros (pre & on & held & Heq & Hon & Hheld & ->).
    apply snoc_eq_inv in Heq as [(-> & -> & ->)|(held' & -> & ->)].
    + by left.
    + right. apply Forall_app in Hheld as [Hheld Hm].
      rewrite Forall_singleton in Hm. split; [done|].
      by exists pre, on, held'.
  - intros [[Hon ->]|[Hm (pre & on & held & -> & Hon & Hheld & ->)]].
    + exists played, m, []. by repeat split.
    + exists pre, on, (held ++ [m]). split; [by rewrite <- app_assoc|].
      split; [done|]. split; [|done].
      apply Forall_app. split; [done|]. by apply Forall_singleton.
Qed.

Lemma short_release_snoc (tpb p : Z) (played : list Message) (m : Message) (t : Z) :
  short_release tpb p (played ++ [m]) t <->
  short_release tpb p played t \/
  (is_off p m /\ t = sum_time (played ++ [m]) /\
   exists t_on, sounding_since p played t_on /\ 2 * (t - t_on) < tpb).
Proof.
  split.
  - intros (pre & off & post & t_on & Heq & Hoff & Hs & -> & Hshort).
    apply snoc_eq_inv in Heq as [(-> & -> & ->)|(post' & -> & ->)].
    + right. eauto.
    + left. by exists pre, off, post', t_on.
  - intros [(pre & off & post & t_on & -> & Hoff & Hs & -> & Hshort)
           |(Hoff & -> & t_on & Hs & Hshort)].
    + exists pre, off, (post ++ [m]), t_on. by rewrite <- app_assoc.
    + by exists played, m, [], t_on.
Qed.

Lemma is_on_off_exclusive (p : Z) (m : Message) : is_on p m -> is_off p m -> False.
Proof. destruct m; simpl; lia. Qed.

Lemma sounding_since_unique (p : Z) (played : list Message) (t t' : Z) :
  sounding_since p played t -> sounding_since p played t' -> t = t'.
Proof.
  revert t t'. induction played as [|m played IH] using rev_ind; intros t t'.
  - intros (pre & on & held & Heq & _). by destruct pre.
  - rewrite !sounding_since_snoc.
    intros [[Hon ->]|[Hm Hs]] [[Hon' ->]|[Hm' Hs']]; try done.
    + exfalso. apply Hm'. by left.
    + exfalso. apply Hm. by left.
    + by apply IH.
Qed.

Lemma sounding_since_nil (p t : Z) : ¬ sounding_since p [] t.
Proof. intros (pre & on & held & Heq & _). by destruct pre. Qed.

Lemma short_release_nil (tpb p t : Z) : ¬ short_release tpb p [] t.
Proof. intros (pre & off & post & t_on & Heq & _). by destruct pre. Qed.

Lemma short_release_past (tpb p : Z) (played : list Message) (t : Z) :
  Forall (λ m, 0 <= time m) played ->
  short_release tpb p played t -> t <= sum_time played.
Proof.
  intros Hpos (pre & off & post & t_on & -> & _ & _ & -> & _).
  change (pre ++ off :: post) with (pre ++ [off] ++ post).
  rewrite app_assoc, (sum_time_app (pre ++ [off]) post).
  apply Forall_app in Hpos as [_ Hpos]. apply Forall_cons in Hpos as [_ Hpos].
  assert (0 <= sum_time post); [|lia].
  clear -Hpos. induction Hpos as [|m post Hm Hall IH]; unfold sum_time in *;
    simpl; lia.
Qed.

Lemma replay_inv_start (tpb : Z) : replay_inv tpb [] replay_start.
Proof.
  split; simpl.
  - done.
  - intros p t. rewrite lookup_empty. split; [done|].
    intros Hs. by apply sounding_since_nil in Hs.
  - intros p t. by rewrite lookup_empty.
  - intros p t Hs. by apply short_release_nil in Hs.
  - intros p t. by rewrite lookup_empty.
Qed.

Lemma is_on_pitch (n p : Z) (m : Message) : is_on n m -> is_on p m -> p = n.
Proof. destruct m; simpl; lia. Qed.

Lemma is_off_pitch (n p : Z) (m : Message) : is_off n m -> is_off p m -> p = n.
Proof. destruct m; simpl; lia. Qed.

Lemma is_on_not_off (n p : Z) (m : Message) : is_on n m -> ¬ is_off p m.
Proof. destruct m; simpl; lia. Qed.

Lemma is_off_not_on (n p : Z) (m : Message) : is_off n m -> ¬ is_on p m.
Proof. destruct m; simpl; lia. Qed.

Lemma msg_cases (m : Message) :
  (exists n, is_on n m) \/ (exists n, is_off n m) \/ (forall p, ¬ touches p m).
Proof.
  destruct m as [n v t|n v t|ty t]; simpl.
  - destruct (Z.lt_trichotomy v 0) as [Hv|[Hv|Hv]].
    + right. right. intros p [H|H]; simpl in H; lia.
    + right. left. exists n. simpl. lia.
    + left. exists n. simpl. lia.
  - right. left. by exists n.
  - right. right. intros p [H|H]; done.
Qed.

Lemma replay_msg_other (tpb : Z) (st : Replay) (m : Message) :
  (forall p, ¬ touches p m) ->
  replay_msg tpb st m = Some (advanced (time m) st).
Proof.
  intros Hm. destruct m as [n v t|n v t|ty t]; simpl.
  - destruct (Z.gtb_spec v 0) as [Hv|Hv].
    { exfalso. apply (Hm n). left. simpl. lia. }
    destruct (Z.eqb_spec v 0) as [Hv0|Hv0]; [|done].
    exfalso. apply (Hm n). right. simpl. lia.
  - exfalso. apply (Hm n). by right.
  - done.
Qed.

Lemma replay_msg_is_off (tpb : Z) (st : Replay) (m : Message) (n : Z) :
  is_off n m ->
  replay_msg tpb st m = Some (replay_off tpb n (advanced (time m) st)).
Proof.
  destruct m as [n' v t|n' v t|ty t]; simpl; [|by intros ->|done].
  intros [-> ->]. done.
Qed.

Lemma replay_msg_is_on (tpb : Z) (st : Replay) (m : Message) (n : Z) :
  is_on n m ->
  replay_msg tpb st m
  = if match last_note_off_time st !! n with
       | Some t_off => below_8th tpb (absolute_time st + time m - t_off)
       | None => false
       end
    then None
    else Some {| notes_on := <[n := absolute_time st + time m]> (notes_on st);
                 last_note_off_time := last_note_off_time st;
                 absolute_time := absolute_time st + time m |}.
Proof.
  destruct m as [n' v t|n' v t|ty t]; simpl; [|done..].
  intros [-> Hv]. destruct (Z.gtb_spec v 0); [done | lia].
Qed.

Lemma replay_inv_other (tpb : Z) (played : list Message) (st : Replay) (m : Message) :
  replay_inv tpb played st -> 0 <= time m -> (forall p, ¬ touches p m) ->
  replay_inv tpb (played ++ [m]) (advanced (time m) st).
Proof.
  intros [Hclock Hon Hoff Hlast Hpast] Hpos Hm. split; simpl.
  - rewrite sum_time_snoc. lia.
  - intros p t. rewrite Hon, sounding_since_snoc. split; [by right; split|].
    intros [[Honm _]|[_ Hs]]; [|done]. exfalso. apply (Hm p). by left.
  - intros p t Ht. apply short_release_snoc. left. by apply Hoff.
  - intros p t Hs. apply short_release_snoc in Hs as [Hs|[Hoffm _]].
    + by apply Hlast.
    + exfalso. apply (Hm p). by right.
  - intros p t Ht. apply Hpast in Ht. lia.
Qed.

Lemma replay_inv_on (tpb : Z) (played : list Message) (st : Replay)
    (m : Message) (n : Z) :
  replay_inv tpb played st -> 0 <= time m -> is_on n m ->
  replay_inv tpb (played ++ [m])
    {| notes_on := <[n := absolute_time st + time m]> (notes_on st);
       last_note_off_time := last_note_off_time st;
       absolute_time := absolute_time st + time m |}.
Proof.
  intros [Hclock Hon Hoff Hlast Hpast] Hpos Hm. split; simpl.
  - rewrite sum_time_snoc. lia.
  - intros p t. rewrite sounding_since_snoc, sum_time_snoc, <- Hclock.
    destruct (decide (p = n)) as [->|Hp].
    + rewrite lookup_insert_eq. split.
      * intros [= <-]. by left.
      * intros [[_ ->]|[Hno _]]; [done|]. exfalso. apply Hno. by left.
    + rewrite lookup_insert_ne by done. rewrite Hon. split.
      * intros Hs. right. split; [|done].
        intros [Hp'|Hp']; [by apply (is_on_pitch n p m) in Hp'
                          | by apply (is_on_not_off n p m) in Hp'].
      * intros [[Hp' _]|[_ Hs]]; [by apply (is_on_pitch n p m) in Hp' | done].
  - intros p t Ht. apply short_release_snoc. left. by apply Hoff.
  - intros p t Hs. apply short_release_snoc in Hs as [Hs|[Hoffm _]].
    + by apply Hlast.
    + by apply (is_on_not_off n p m) in Hoffm.
  - intros p t Ht. apply Hpast in Ht. lia.
Qed.

Lemma sounding_since_after_off (n p : Z) (played : list Message) (m : Message) (t : Z) :
  is_off n m ->
  sounding_since p (played ++ [m]) t <-> p <> n /\ sounding_since p played t.
Proof.
  intros Hm. rewrite sounding_since_snoc. split.
  - intros [[Hon _]|[Hno Hs]]; [by apply (is_off_not_on n p m) in Hon|].
    split; [|done]. intros ->. apply Hno. by right.
  - intros [Hp Hs]. right. split; [|done].
    intros [Hon|Hoff]; [by apply (is_off_not_on n p m) in Hon|].
    by apply (is_off_pitch n p m) in Hoff.
Qed.

Lemma replay_inv_off (tpb : Z) (played : list Message) (st : Replay)
    (m : Message) (n : Z) :
  replay_inv tpb played st -> 0 <= time m -> is_off n m ->
  replay_inv tpb (played ++ [m]) (replay_off tpb n (advanced (time m) st)).
Proof.
  intros [Hclock Hon Hoff Hlast Hpast] Hpos Hm.
  unfold replay_off. simpl.
  destruct (notes_on st !! n) as [t_on|] eqn:Hn.
  - pose proof (proj1 (Hon n t_on) Hn) as Hsound.
    unfold below_8th.
    destruct (Z.ltb_spec (2 * (absolute_time st + time m - t_on)) tpb)
      as [Hshort|Hlong]; split; simpl.
    + rewrite sum_time_snoc. lia.
    + intros p t. rewrite (sounding_since_after_off n p _ _ _ Hm), <- Hon.
      destruct (decide (p = n)) as [->|Hp].
      * rewrite lookup_delete_eq. split; [done | by intros [? _]].
      * rewrite lookup_delete_ne by done. tauto.
    + intros p t Ht. apply short_release_snoc.
      destruct (decide (p = n)) as [->|Hp].
      * rewrite lookup_insert_eq in Ht. injection Ht as <-. right.
        rewrite sum_time_snoc, <- Hclock. split; [done|]. split; [done|].
        by exists t_on.
      * rewrite lookup_insert_ne in Ht by done. left. by apply Hoff.
    + intros p t Hs. apply short_release_snoc in Hs as [Hs|(Hp & -> & _)].
      * destruct (Hlast p t Hs) as (t' & Ht' & Hle).
        destruct (decide (p = n)) as [->|Hp].
        -- rewrite lookup_insert_eq. eexists. split; [done|].
           apply Hpast in Ht'. lia.
        -- rewrite lookup_insert_ne by done. eauto.
      * apply (is_off_pitch n p m Hm) in Hp as ->.
        rewrite lookup_insert_eq, sum_time_snoc, <- Hclock.
        eexists. split; [done | lia].
    + intros p t. destruct (decide (p = n)) as [->|Hp].
      * rewrite lookup_insert_eq. intros [= <-]. lia.
      * rewrite lookup_insert_ne by done. intros Ht. apply Hpast in Ht. lia.
    + rewrite sum_time_snoc. lia.
    + intros p t. rewrite (sounding_since_after_off n p _ _ _ Hm), <- Hon.
      destruct (decide (p = n)) as [->|Hp].
      * rewrite lookup_delete_eq. split; [done | by intros [? _]].
      * rewrite lookup_delete_ne by done. tauto.
    + intros p t Ht. apply short_release_snoc. left. by apply Hoff.
    + intros p t Hs.
      apply short_release_snoc in Hs as [Hs|(Hp & -> & t_on' & Hs & Hsh)].
      * by apply Hlast.
      * apply (is_off_pitch n p m Hm) in Hp as ->.
        rewrite (sounding_since_unique _ _ _ _ Hs Hsound) in Hsh.
        rewrite sum_time_snoc, <- Hclock in Hsh. lia.
    + intros p t Ht. apply Hpast in Ht. lia.
  - split; simpl.
    + rewrite sum_time_snoc. lia.
    + intros p t. rewrite (sounding_since_after_off n p _ _ _ Hm), <- Hon.
      split; [|tauto]. intros Ht. split; [|done]. intros ->. congruence.
    + intros p t Ht. apply short_release_snoc. left. by apply Hoff.
    + intros p t Hs.
      apply short_release_snoc in Hs as [Hs|(Hp & -> & t_on' & Hs & Hsh)].
      * by apply Hlast.
      * apply (is_off_pitch n p m Hm) in Hp as ->.
        apply Hon in Hs. congruence.
    + intros p t Ht. apply Hpast in Ht. lia.
Qed.

(** The replay stops at a message exactly when it is a note-on that comes
    less than half a beat after the last short-held release of its pitch. *)
Lemma replay_msg_None (tpb : Z) (st : Replay) (m : Message) :
  replay_msg tpb st m = None <->
  exists n t_off, is_on n m /\ last_note_off_time st !! n = Some t_off /\
                  2 * (absolute_time st + time m - t_off) < tpb.
Proof.
  destruct (msg_cases m) as [[n Hm]|[[n Hm]|Hm]].
  - rewrite (replay_msg_is_on _ _ _ _ Hm). unfold below_8th. split.
    + destruct (last_note_off_time st !! n) as [t_off|] eqn:Ht; [|done].
      destruct (Z.ltb_spec (2 * (absolute_time st + time m - t_off)) tpb);
        [|done].
      intros _. by exists n, t_off.
    + intros (n' & t_off & Hm' & Ht & Hlt).
      apply (is_on_pitch n n' m Hm) in Hm' as ->. rewrite Ht.
      destruct (Z.ltb_spec (2 * (absolute_time st + time m - t_off)) tpb);
        [done | lia].
  - rewrite (replay_msg_is_off _ _ _ _ Hm). split; [done|].
    intros (n' & _ & Hm' & _). by apply (is_off_not_on n n' m) in Hm'.
  - rewrite (replay_msg_other _ _ _ Hm). split; [done|].
    intros (n' & _ & Hm' & _). exfalso. apply (Hm n'). by left.
Qed.

Lemma replay_inv_step (tpb : Z) (played : list Message) (st st' : Replay)
    (m : Message) :
  replay_inv tpb played st -> 0 <= time m ->
  replay_msg tpb st m = Some st' ->
  replay_inv tpb (played ++ [m]) st'.
Proof.
  intros Hinv Hpos Hstep.
  destruct (msg_cases m) as [[n Hm]|[[n Hm]|Hm]].
  - rewrite (replay_msg_is_on _ _ _ _ Hm) in Hstep.
    destruct (match last_note_off_time st !! n with
              | Some _ => _ | None => _ end); [done|].
    injection Hstep as <-. by apply replay_inv_on.
  - rewrite (replay_msg_is_off _ _ _ _ Hm) in Hstep.
    injection Hstep as <-. by apply replay_inv_off.
  - rewrite (replay_msg_other _ _ _ Hm) in Hstep.
    injection Hstep as <-. by apply replay_inv_other.
Qed.

Lemma replay_track_None (tpb : Z) (rest played : list Message) (st : Replay) :
  replay_inv tpb played st -> Forall (λ m, 0 <= time m) rest ->
  replay_track tpb st rest = None <->
  exists (p : Z) (pre : list Message) (on : Message) (post : list Message)
         (t_off : Z),
    rest = pre ++ on :: post /\ is_on p on /\
    short_release tpb p (played ++ pre) t_off /\
    2 * (sum_time (played ++ pre ++ [on]) - t_off) < tpb.
Proof.
  intros Hinv Hpos. revert played st Hinv.
  induction Hpos as [|m rest Hm Hpos IH]; intros played st Hinv;
    cbn [replay_track].
  - split; [done|]. intros (p & pre & on & post & t_off & Heq & _).
    by destruct pre.
  - destruct (replay_msg tpb st m) as [st'|] eqn:Hstep.
    + pose proof (replay_inv_step _ _ _ _ _ Hinv Hm Hstep) as Hinv'.
      rewrite (IH _ _ Hinv'). split.
      * intros (p & pre & on & post & t_off & -> & Hon & Hs & Hlt).
        exists p, (m :: pre), on, post, t_off.
        rewrite <- app_assoc in Hs, Hlt. done.
      * intros (p & pre & on & post & t_off & Heq & Hon & Hs & Hlt).
        destruct pre as [|m' pre].
        -- exfalso. simpl in Heq. injection Heq as <- <-.
           rewrite app_nil_r in Hs. rewrite app_nil_l, sum_time_snoc in Hlt.
           destruct (inv_last _ _ _ Hinv p t_off Hs) as (t' & Ht' & Hle).
           assert (replay_msg tpb st m = None) as Hnone; [|congruence].
           apply replay_msg_None. exists p, t'.
           rewrite (inv_clock _ _ _ Hinv). repeat split; [done..|lia].
        -- simpl in Heq. injection Heq as <- ->.
           exists p, pre, on, post, t_off.
           rewrite <- !app_assoc. done.
    + split; [|done]. intros _.
      apply replay_msg_None in Hstep as (p & t_off & Hon & Ht & Hlt).
      exists p, [], m, rest, t_off. rewrite app_nil_r. simpl.
      split; [done|]. split; [done|].
      split; [by apply (inv_off _ _ _ Hinv)|].
      rewrite sum_time_snoc, <- (inv_clock _ _ _ Hinv). done.
Qed.

Lemma replay_track_retrigger (tpb : Z) (track : MidiTrack) :
  Forall (λ m, 0 <= time m) track ->
  replay_track tpb replay_start track = None <-> retrigger tpb track.
Proof.
  intros Hpos.
  rewrite (replay_track_None tpb track [] replay_start
             (replay_inv_start tpb) Hpos).
  unfold retrigger. simpl. done.
Qed.

Lemma replay_tracks_false (tpb : Z) (tracks : list MidiTrack) :
  replay_tracks tpb tracks = false <->
  exists track, track ∈ tracks /\ replay_track tpb replay_start track = None.
Proof.
  induction tracks as [|track tracks IH]; simpl.
  - split; [done|]. intros (track & Hin & _). by apply elem_of_nil in Hin.
  - destruct (replay_track tpb replay_start track) eqn:Ht.
    + rewrite IH. split.
      * intros (tr & Hin & Hnone). exists tr. split; [by right | done].
      * intros (tr & Hin & Hnone).
        apply elem_of_cons in Hin as [->|Hin]; [congruence|]. by exists tr.
    + split; [|done]. intros _. exists track. split; [left | done].
Qed.

(** C7: on a file whose delta-times are not negative, post-validation
    returns false exactly when some track has a note-on that comes less
    than half a beat after a prior note-off of the same pitch that ended a
    note held for less than half a beat; a file that cannot be read yields
    false. *)
Theorem validate_midi_post_creation_spec :
  (forall mid : MidiFile,
     Forall (Forall (λ msg, 0 <= time msg)) (tracks mid) ->
     validate_midi_post_creation (Some mid) = false <->
     exists track, track ∈ tracks mid /\ retrigger (ticks_per_beat mid) track) /\
  validate_midi_post_creation None = false.
Proof.
  split; [|done]. intros mid Hpos. simpl.
  rewrite replay_tracks_false.
  split; intros (track & Hin & Htrack); exists track; (split; [done|]).
  - apply replay_track_retrigger; [|done].
    rewrite Forall_forall in Hpos. by apply Hpos.
  - apply replay_track_retrigger in Htrack; [done|].
    rewrite Forall_forall in Hpos. by apply Hpos.
Qed.

Lemma validate_midi_post_creation_spec_witness :
  validate_midi_post_creation
    (Some {| ticks_per_beat := 480;
             tracks := [[note_on 60 80 0; note_off 60 80 100;
                         note_on 60 80 100]] |}) = false <->
  exists track,
    track ∈ [[note_on 60 80 0; note_off 60 80 100; note_on 60 80 100]] /\
    retrigger 480 track.
Proof.
  apply (proj1 validate_midi_post_creation_spec
           {| ticks_per_beat := 480;
              tracks := [[note_on 60 80 0; note_off 60 80 100;
                          note_on 60 80 100]] |}).
  simpl. apply Forall_cons_2; [|apply Forall_nil_2].
  apply Forall_cons_2; [simpl; lia|].
  apply Forall_cons_2; [simpl; lia|].
  apply Forall_cons_2; [simpl; lia|].
  apply Forall_nil_2.
Defined.

(** ** The encoder's output passes post-validation *)

Lemma replay_track_app (tpb : Z) (st : Replay) (l1 l2 : list Message) :
  replay_track tpb st (l1 ++ l2)
  = match replay_track tpb st l1 with
    | Some st' => replay_track tpb st' l2
    | None => None
    end.
Proof.
  revert st. induction l1 as [|m l1 IH]; intros st; simpl; [done|].
  destruct (replay_msg tpb st m); [apply IH | done].
Qed.

Lemma quiet_weaken (hold hold' : Z) (st : Replay) :
  hold' <= hold -> quiet hold st -> quiet hold' st.
Proof.
  intros Hle [Hoff Hon]. split; [done|].
  intros p t Ht. apply Hon in Ht. lia.
Qed.

Lemma replay_quiet_on (st : Replay) (p dt : Z) :
  quiet 0 st -> 0 <= dt ->
  exists st', replay_msg 480 st (note_on p 80 dt) = Some st' /\ quiet 0 st'.
Proof.
  intros [Hoff Hon] Hdt. simpl. rewrite Hoff, lookup_empty.
  eexists. split; [done|]. split; simpl; [done|].
  intros p' t. destruct (decide (p' = p)) as [->|Hp].
  - rewrite lookup_insert_eq. intros [= <-]. lia.
  - rewrite lookup_insert_ne by done. intros Ht. apply Hon in Ht. lia.
Qed.

Lemma replay_quiet_off (st : Replay) (p dt hold : Z) :
  quiet hold st -> 0 <= dt -> 240 <= hold + dt ->
  exists st', replay_msg 480 st (note_off p 80 dt) = Some st' /\ quiet 240 st'.
Proof.
  intros [Hoff Hon] Hdt Hhold. simpl. eexists. split; [done|].
  unfold replay_off. simpl.
  destruct (notes_on st !! p) as [t_on|] eqn:Hp.
  - pose proof (Hon _ _ Hp) as Ht_on. unfold below_8th.
    destruct (Z.ltb_spec (2 * (absolute_time st + dt - t_on)) 480); [lia|].
    split; simpl; [done|].
    intros p' t. destruct (decide (p' = p)) as [->|Hp'].
    + by rewrite lookup_delete_eq.
    + rewrite lookup_delete_ne by done. intros Ht. apply Hon in Ht. lia.
  - split; simpl; [done|]. intros p' t Ht. apply Hon in Ht. lia.
Qed.

Lemma replay_quiet_meta (st : Replay) (ty : MetaType) (hold : Z) :
  quiet hold st ->
  exists st', replay_msg 480 st (MetaMessage ty 0) = Some st' /\ quiet hold st'.
Proof.
  intros [Hoff Hon]. simpl. eexists. split; [done|]. split; simpl; [done|].
  intros p t Ht. apply Hon in Ht. lia.
Qed.

Lemma replay_quiet_ons (pitches : list Z) (st : Replay) :
  quiet 0 st ->
  exists st', replay_track 480 st (map (λ p, note_on p 80 0) pitches) = Some st'
              /\ quiet 0 st'.
Proof.
  revert st. induction pitches as [|p pitches IH]; intros st Hq;
    cbn [map replay_track].
  - by exists st.
  - destruct (replay_quiet_on st p 0 Hq) as (st' & -> & Hq'); [lia|].
    by apply IH.
Qed.

Lemma replay_quiet_offs (pitches : list Z) (st : Replay) :
  quiet 240 st ->
  exists st', replay_track 480 st (map (λ p, note_off p 80 0) pitches) = Some st'
              /\ quiet 240 st'.
Proof.
  revert st. induction pitches as [|p pitches IH]; intros st Hq;
    cbn [map replay_track].
  - by exists st.
  - destruct (replay_quiet_off st p 0 240 Hq) as (st' & -> & Hq'); [lia..|].
    by apply IH.
Qed.

Lemma replay_quiet_chord (pitches : list Z) (st : Replay) (pending ticks : Z) :
  quiet 0 st -> 0 <= pending -> 240 <= ticks ->
  exists st',
    replay_track 480 st (chord_on pending pitches ++ chord_off ticks pitches)
    = Some st' /\ quiet 0 st'.
Proof.
  intros Hq Hpending Hticks.
  destruct pitches as [|first others]; [by exists st|].
  rewrite replay_track_app. cbn [chord_on chord_off replay_track].
  destruct (replay_quiet_on st first pending Hq Hpending) as (st1 & -> & Hq1).
  destruct (replay_quiet_ons others st1 Hq1) as (st2 & -> & Hq2).
  destruct (replay_quiet_off st2 first ticks 0 Hq2) as (st3 & -> & Hq3);
    [lia..|].
  destruct (replay_quiet_offs others st3 Hq3) as (st4 & -> & Hq4).
  exists st4. split; [done|]. by apply (quiet_weaken 240).
Qed.

(** The replay of the messages of final events runs to the end. *)
Lemma replay_quiet_encode (events : list Event) (st : Replay) (pending : Z) :
  Forall final_event_ok events -> quiet 0 st -> 0 <= pending ->
  exists st', replay_track 480 st (encode 240 pending events) = Some st'
              /\ quiet 0 st'.
Proof.
  intros Hok. revert st pending.
  induction Hok as [|e events [Hm Hd] Hok IH]; intros st pending Hq Hp;
    cbn [encode].
  - by exists st.
  - destruct Hm as [Hr|[Hn Hne]].
    + rewrite Hr. apply IH; [done | lia].
    + rewrite Hn, app_assoc, replay_track_app.
      destruct (replay_quiet_chord (notes e) st pending (duration e * 240))
        as (st' & -> & Hq'); [done | done | lia |].
      by apply IH.
Qed.

Lemma replay_quiet_metas (metas : list Message) (st : Replay) :
  Forall (λ m, exists ty, m = MetaMessage ty 0) metas -> quiet 0 st ->
  exists st', replay_track 480 st metas = Some st' /\ quiet 0 st'.
Proof.
  intros Hmetas. revert st.
  induction Hmetas as [|m metas [ty ->] Hmetas IH]; intros st Hq;
    cbn [replay_track].
  - by exists st.
  - destruct (replay_quiet_meta st ty 0 Hq) as (st' & -> & Hq'). by apply IH.
Qed.

Lemma replay_encoded_track (head tail : list Message) (events : list Event) :
  Forall (λ m, exists ty, m = MetaMessage ty 0) head ->
  Forall (λ m, exists ty, m = MetaMessage ty 0) tail ->
  Forall final_event_ok events ->
  exists st,
    replay_track 480 replay_start (head ++ encode 240 0 events ++ tail)
    = Some st /\ last_note_off_time st = ∅.
Proof.
  intros Hhead Htail Hok.
  assert (quiet 0 replay_start) as Hq0.
  { split; [done|]. intros p t. simpl. by rewrite lookup_empty. }
  rewrite replay_track_app.
  destruct (replay_quiet_metas head _ Hhead Hq0) as (st1 & -> & Hq1).
  rewrite replay_track_app.
  destruct (replay_quiet_encode events st1 0 Hok Hq1) as (st2 & -> & Hq2);
    [lia|].
  destruct (replay_quiet_metas tail _ Htail Hq2) as (st3 & -> & Hq3).
  exists st3. split; [done|]. by destruct Hq3.
Qed.

Lemma split_events_ok (parsed_events : list ParsedEvent) :
  Forall (λ e, 1 <= p_duration e) parsed_events ->
  Forall split_event_ok (treble_events_raw parsed_events) /\
  Forall split_event_ok (bass_events_raw parsed_events).
Proof.
  intros Hd. destruct (split_events_length parsed_events) as [Ht Hb].
  rewrite Forall_lookup in Hd.
  split; apply Forall_lookup; intros i x Hx;
    (destruct (lookup_lt_is_Some_2 parsed_events i) as [e He];
     [apply lookup_lt_Some in Hx; lia|]);
    destruct (split_events_lookup _ _ _ He) as [Hti Hbi];
    rewrite ?Hti, ?Hbi in Hx; injection Hx as <-;
    (split; simpl; [by apply (Hd i)|]).
  - destruct (treble_of (p_notes e)); simpl; [by left | by right].
  - destruct (bass_of (p_notes e)); simpl; [by left | by right].
Qed.

Lemma merge_final_ok (raw : list Event) :
  Forall split_event_ok raw ->
  Forall final_event_ok (merge_sustain_events raw).
Proof.
  induction raw as [|e raw IH] using rev_ind; [by constructor|].
  intros Hraw. apply Forall_app in Hraw as [Hall He].
  rewrite Forall_singleton in He. specialize (IH Hall).
  destruct He as [Hd [Hs|[Hn Hne]]]; rewrite merge_snoc.
  - destruct (snoc_or_nil (merge_sustain_events raw)) as [Hm|(ms & m & Hm)];
      rewrite Hm in *.
    + rewrite (merge_event_sustain_first _ Hs).
      apply Forall_singleton. split; [by left | done].
    + apply Forall_app in IH as [IHms IHm].
      rewrite Forall_singleton in IHm. destruct IHm as [Hmm Hmd].
      destruct (decide (type m = Note)) as [Hmn|Hmn].
      * rewrite (merge_event_sustain_note _ _ _ Hs Hmn).
        apply Forall_app. split; [done|]. apply Forall_singleton.
        split; simpl; [|lia]. destruct Hmm as [Hr|[_ Hmne]]; [congruence|].
        right. by split.
      * rewrite (merge_event_sustain_rest _ _ _ Hs Hmn).
        apply Forall_app. split; [done|]. apply Forall_app.
        split; apply Forall_singleton; split; try done. by left.
  - rewrite (merge_event_note _ _ Hn). apply Forall_app. split; [done|].
    apply Forall_singleton. split; [|done]. right. by split.
Qed.

Lemma final_event_ok_merged (events : list Event) :
  Forall final_event_ok events -> Forall merged_event events.
Proof. intros Hok. eapply Forall_impl; [exact Hok|]. by intros e [He _]. Qed.

Lemma decoded_durations (slots : list str) :
  Forall (λ e, 1 <= p_duration e) (decoded slots).
Proof.
  unfold decoded. apply Forall_forall. intros e He.
  apply list_elem_of_fmap in He as (i & -> & _). simpl. lia.
Qed.

(** What [create_midi_file] writes for decoded events of at least one
    slot each, and that it passes the replay. *)
Lemma create_midi_file_passes (parsed_events : list ParsedEvent) (tpb : Z) :
  Forall (λ e, 1 <= p_duration e) parsed_events ->
  exists mid : MidiFile,
    create_midi_file parsed_events tpb = Some mid /\
    ticks_per_beat mid = 480 /\
    Forall (λ track, exists st,
              replay_track 480 replay_start track = Some st /\
              last_note_off_time st = ∅) (tracks (saved mid)) /\
    validate_midi_post_creation (Some (saved mid)) = true /\
    validate_midi_post_creation (Some mid) = true.
Proof.
  intros Hd. destruct (split_events_ok _ Hd) as [Ht Hb].
  apply merge_final_ok in Ht, Hb.
  unfold create_midi_file. cbv zeta.
  rewrite !write_track_encode by (by apply final_event_ok_merged).
  eexists. split; [done|]. split; [done|].
  assert (Forall (λ m, exists ty, m = MetaMessage ty 0)
            [MetaMessage (set_tempo (bpm2tempo 150)) 0]) as Htempo.
  { apply Forall_singleton. by eexists. }
  assert (Forall (λ m, exists ty, m = MetaMessage ty 0)
            [MetaMessage end_of_track 0]) as Hend.
  { apply Forall_singleton. by eexists. }
  assert (Forall (λ m : Message, exists ty, m = MetaMessage ty 0) [])
    as Hnil by constructor.
  unfold TICKS_PER_8TH_NOTE.
  destruct (replay_encoded_track _ _ _ Htempo Hend Ht) as (s1 & Hs1 & Hq1).
  destruct (replay_encoded_track _ _ _ Hnil Hend Hb) as (s2 & Hs2 & Hq2).
  destruct (replay_encoded_track _ _ _ Htempo Hnil Ht) as (m1 & Hm1 & _).
  destruct (replay_encoded_track _ _ _ Hnil Hnil Hb) as (m2 & Hm2 & _).
  rewrite app_nil_r in Hm1, Hm2.
  cbn [validate_midi_post_creation saved ticks_per_beat tracks map
       replay_tracks]; unfold DEFAULT_TICKS_PER_BEAT.
  rewrite <- !app_assoc.
  split; [|split].
  - apply Forall_cons_2; [by exists s1|].
    apply Forall_cons_2; [by exists s2|]. apply Forall_nil_2.
  - by rewrite Hs1, Hs2.
  - by rewrite Hm1, Hm2.
Qed.

(** C8: for decoded events, each of at least one slot, [create_midi_file]
    writes a file at 480 ticks per beat on whose tracks the replay of the
    post-validator runs to the end without recording any short-held
    note-off, so that the file passes post-validation, both as written and
    as read back; this holds for the events that the decoder returns for
    any text, whatever the [ticks_per_beat] argument. *)
Theorem encoder_output_passes_post_validation :
  (forall (parsed_events : list ParsedEvent) (ticks_per_beat_arg : Z),
     Forall (λ e, 1 <= p_duration e) parsed_events ->
     exists mid : MidiFile,
       create_midi_file parsed_events ticks_per_beat_arg = Some mid /\
       ticks_per_beat mid = 480 /\
       Forall (λ track, exists st,
                 replay_track 480 replay_start track = Some st /\
                 last_note_off_time st = ∅) (tracks (saved mid)) /\
       validate_midi_post_creation (Some (saved mid)) = true /\
       validate_midi_post_creation (Some mid) = true) /\
  (forall (text : str) (ticks_per_beat_arg : Z),
     exists (parsed_events : list ParsedEvent) (mid : MidiFile),
       parse_number_string text = Some parsed_events /\
       create_midi_file parsed_events ticks_per_beat_arg = Some mid /\
       validate_midi_post_creation (Some (saved mid)) = true).
Proof.
  split; [exact create_midi_file_passes|].
  intros text tpb.
  destruct (create_midi_file_passes (decoded (slots_of text)) tpb
              (decoded_durations _)) as (mid & Hmid & _ & _ & Hsaved & _).
  exists (decoded (slots_of text)), mid.
  by rewrite parse_number_string_decoded.
Qed.

Lemma encoder_output_passes_post_validation_witness :
  exists mid : MidiFile,
    create_midi_file
      [{| p_notes := [55; 65]; p_duration := 1 |};
       {| p_notes := [55]; p_duration := 2 |}] 480 = Some mid /\
    ticks_per_beat mid = 480 /\
    Forall (λ track, exists st,
              replay_track 480 replay_start track = Some st /\
              last_note_off_time st = ∅) (tracks (saved mid)) /\
    validate_midi_post_creation (Some (saved mid)) = true /\
    validate_midi_post_creation (Some mid) = true.
Proof.
  apply (proj1 encoder_output_passes_post_validation
           [{| p_notes := [55; 65]; p_duration := 1 |};
            {| p_notes := [55]; p_duration := 2 |}] 480).
  apply Forall_cons_2; [simpl; lia|].
  apply Forall_cons_2; [simpl; lia|].
  apply Forall_nil_2.
Defined.

(** * Further properties *)

(** ** The decoder on its inputs *)

Lemma strip_whitespace_only (s : str) : whitespace_only s = true -> strip s = [].
Proof.
  intros Hw. pose proof (truthy_strip s) as Ht. rewrite Hw in Ht.
  by destruct (strip s).
Qed.

(** X1: A text of whitespace only, the empty text included, has no slot and
    decodes to no event. *)
Theorem parse_blank_text (text : str) :
  whitespace_only text = true ->
  slots_of text = [[]; []] /\ parse_number_string text = Some [].
Proof.
  intros Hw.
  assert (slots_of text = [[]; []]) as Hslots.
  { unfold slots_of, normalize. by rewrite (strip_whitespace_only _ Hw). }
  split; [done|].
  rewrite parse_number_string_decoded, Hslots. reflexivity.
Qed.

Lemma parse_blank_text_witness :
  slots_of (py "  ") = [[]; []] /\ parse_number_string (py "  ") = Some [].
Proof. apply (parse_blank_text (py "  ")). reflexivity. Defined.

Lemma notes_of_tokens_elem (tokens : list str) (p : Z) :
  p ∈ notes_of_tokens tokens ->
  exists token, token ∈ tokens /\ number_to_midi token = Some p.
Proof.
  unfold notes_of_tokens. intros Hp.
  apply list_elem_of_omap in Hp as (o & Ho & Hp). simpl in Hp. subst o.
  apply list_elem_of_fmap in Ho as (token & Heq & Htoken). eauto.
Qed.

Lemma number_to_midi_in_table (token : str) (p : Z) :
  number_to_midi token = Some p -> p ∈ PITCHES.
Proof.
  unfold number_to_midi, number_to_midi_io. intros Hp.
  destruct (NUMBER_TO_MIDI_MAP !! strip token) as [q|] eqn:Hq; [|done].
  simpl in Hp. injection Hp as ->.
  apply elem_of_list_to_map_2 in Hq.
  rewrite <- table_values. apply list_elem_of_fmap. by exists (strip token, p).
Qed.

Lemma table_range (p : Z) : p ∈ PITCHES -> 41 <= p <= 81.
Proof.
  intros Hp. unfold PITCHES in Hp.
  repeat (apply elem_of_cons in Hp as [->|Hp]; [lia|]).
  by apply elem_of_nil in Hp.
Qed.

(** X2: Every event the decoder returns lasts at least one slot, has at least
    one pitch, and all its pitches are values of the table, between 41 and
    81. *)
Theorem parse_events_well_formed (text : str) :
  exists parsed_events : list ParsedEvent,
    parse_number_string text = Some parsed_events /\
    Forall (λ e, 1 <= p_duration e /\ p_notes e <> [] /\
                 Forall (λ p, p ∈ PITCHES /\ 41 <= p <= 81) (p_notes e))
           parsed_events.
Proof.
  exists (decoded (slots_of text)).
  split; [apply parse_number_string_decoded|].
  unfold decoded. apply Forall_forall. intros e He.
  apply list_elem_of_fmap in He as (i & -> & Hi).
  apply list_elem_of_filter in Hi as [Hchord _].
  unfold chord_slot in Hchord. apply andb_true_iff in Hchord as [_ Hnotes].
  simpl. split; [lia|]. split; [by apply truthy_true|].
  apply Forall_forall. intros p Hp.
  apply notes_of_tokens_elem in Hp as (token & _ & Hp).
  apply number_to_midi_in_table in Hp. split; [done|]. by apply table_range.
Qed.

Lemma parsed_duration_snoc (parsed_events : list ParsedEvent) (e : ParsedEvent) :
  parsed_duration (parsed_events ++ [e])
  = parsed_duration parsed_events + p_duration e.
Proof.
  unfold parsed_duration.
  induction parsed_events as [|x l IH]; simpl; [lia|]. rewrite IH. lia.
Qed.

Lemma parse_loop_span (fuel : nat) (slots : list str) (i : nat)
    (acc res : list ParsedEvent) :
  (i <= length slots - 1)%nat ->
  parse_loop fuel slots i acc = Some res ->
  parsed_duration res
  <= parsed_duration acc + Z.of_nat (length slots - 1 - i) /\
  (length res <= length acc + (length slots - 1 - i))%nat.
Proof.
  revert i acc. induction fuel as [|fuel IH]; intros i acc Hi; [done|].
  cbn [parse_loop].
  destruct (i <? length slots - 1)%nat eqn:Hlt.
  2: { intros [= <-]. lia. }
  apply Nat.ltb_lt in Hlt. cbv zeta. rewrite truthy_strip.
  destruct (whitespace_only (slot slots i)); simpl negb; cbv iota.
  - intros Hres. apply IH in Hres; lia.
  - rewrite lookahead_run by lia.
    replace (i + 1)%nat with (S i) by lia.
    fold (following slots i). fold (trailing_empty slots i).
    pose proof (trailing_empty_bound slots i Hlt) as Hrun.
    intros Hres. apply IH in Hres; [|lia].
    destruct (truthy (chord_notes (strip (slot slots i)))).
    + rewrite parsed_duration_snoc, length_app in Hres. simpl in Hres. lia.
    + lia.
Qed.

(** X3: The events of a text never last longer, taken together, than the text
    has slots, and there are never more events than slots. *)
Theorem parse_duration_within_slots (text : str) (parsed_events : list ParsedEvent) :
  parse_number_string text = Some parsed_events ->
  parsed_duration parsed_events <= Z.of_nat (length (slots_of text) - 2) /\
  (length parsed_events <= length (slots_of text) - 2)%nat.
Proof.
  unfold parse_number_string. cbv zeta. intros Hres.
  destruct (decide (length (slots_of text) <= 1)%nat) as [Hshort|Hlong].
  - cbn [parse_loop] in Hres.
    replace (1 <? length (slots_of text) - 1)%nat with false in Hres
      by (symmetry; apply Nat.ltb_ge; lia).
    injection Hres as <-. unfold parsed_duration. simpl. lia.
  - apply parse_loop_span in Hres; [|lia].
    unfold parsed_duration in Hres at 2. simpl in Hres. lia.
Qed.

Lemma parse_duration_within_slots_witness :
  parsed_duration [{| p_notes := [41]; p_duration := 2 |};
                   {| p_notes := [43]; p_duration := 1 |}]
  <= Z.of_nat (length (slots_of (py "/1//2/")) - 2) /\
  Nat.le (length [{| p_notes := [41]; p_duration := 2 |};
                  {| p_notes := [43]; p_duration := 1 |}])
         (length (slots_of (py "/1//2/")) - 2).
Proof.
  apply (parse_duration_within_slots (py "/1//2/")). vm_compute. reflexivity.
Defined.

(** ** Normalisation of the text *)

Lemma split_nonempty (sep : char) (s : str) : split sep s <> [].
Proof.
  destruct s as [|c s]; simpl; [done|].
  destruct (c =? sep)%N; [done|]. by destruct (split sep s).
Qed.

Lemma split_snoc_sep (sep : char) (s : str) :
  split sep (s ++ [sep]) = split sep s ++ [[]].
Proof.
  induction s as [|c s IH]; simpl.
  - by rewrite N.eqb_refl.
  - destruct (c =? sep)%N; rewrite IH; [done|].
    pose proof (split_nonempty sep s) as Hne.
    by destruct (split sep s).
Qed.

Lemma startswith_slash_inv (s : str) :
  startswith_slash s = true -> exists r, s = slash :: r.
Proof.
  destruct s as [|c r]; simpl; [done|].
  intros Hc. apply N.eqb_eq in Hc as ->. by exists r.
Qed.

Lemma endswith_slash_inv (s : str) :
  endswith_slash s = true -> exists q, s = q ++ [slash].
Proof.
  unfold endswith_slash. destruct (last s) as [c|] eqn:Hl; [|done].
  intros Hc. apply N.eqb_eq in Hc as ->. by apply last_Some in Hl.
Qed.

Lemma endswith_slash_snoc (q : str) : endswith_slash (q ++ [slash]) = true.
Proof. unfold endswith_slash. by rewrite last_snoc. Qed.

(** The normalised text begins and ends with the delimiter. *)
Lemma normalize_delimited (text : str) :
  normalize text = [slash] \/
  exists body, normalize text = slash :: body ++ [slash].
Proof.
  unfold normalize. cbv zeta.
  assert (exists r, (if startswith_slash (strip text) then strip text
                     else slash :: strip text) = slash :: r) as [r ->].
  { destruct (startswith_slash (strip text)) eqn:Hs; [|by eexists].
    by apply startswith_slash_inv. }
  destruct (endswith_slash (slash :: r)) eqn:He.
  - apply endswith_slash_inv in He as [q Hq].
    destruct q as [|c q]; simpl in Hq.
    + injection Hq as ->. by left.
    + injection Hq as <- ->. right. by exists q.
  - right. by exists r.
Qed.

(** X4: The first and the last element of the split are always empty, so the
    decoder's walk from index 1 to [len(slots) - 2] visits every slot of
    the text. *)
Theorem slots_of_framed (text : str) :
  exists middle : list str,
    slots_of text = [] :: middle ++ [[]] /\
    (length (slots_of text) - 2)%nat = length middle /\
    forall i, (i < length middle)%nat ->
              middle !! i = Some (slot (slots_of text) (S i)).
Proof.
  assert (exists middle : list str, slots_of text = [] :: middle ++ [[]])
    as [middle Hm].
  { unfold slots_of.
    destruct (normalize_delimited text) as [->|[body ->]].
    - by exists ([] : list str).
    - exists (split slash body : list str).
      change (slash :: body ++ [slash]) with (slash :: (body ++ [slash])).
      cbn [split]. rewrite N.eqb_refl. by rewrite split_snoc_sep. }
  exists middle. rewrite Hm. split; [done|]. split.
  - rewrite length_cons, length_app, length_cons, length_nil. lia.
  - intros i Hi. unfold slot. simpl.
    destruct (lookup_lt_is_Some_2 middle i Hi) as [x Hx].
    rewrite Hx. f_equal. symmetry. apply nth_lookup_Some.
    by rewrite lookup_app_l.
Qed.

Lemma slots_of_framed_witness :
  exists middle : list str,
    slots_of (py "1/ /2") = [] :: middle ++ [[]] /\
    (length (slots_of (py "1/ /2")) - 2)%nat = length middle /\
    middle !! 1%nat = Some (slot (slots_of (py "1/ /2")) 2).
Proof.
  destruct (slots_of_framed (py "1/ /2")) as (middle & Hm & Hlen & Hat).
  exists middle. split; [exact Hm|]. split; [exact Hlen|].
  apply (Hat 1%nat). rewrite <- Hlen. vm_compute. lia.
Defined.

Lemma lstrip_nonspace (c : char) (s : str) :
  isspace c = false -> lstrip (c :: s) = c :: s.
Proof. intros Hc. simpl. by rewrite Hc. Qed.

Lemma rstrip_nonspace (q : str) (c : char) :
  isspace c = false -> rstrip (q ++ [c]) = q ++ [c].
Proof.
  intros Hc. unfold rstrip. rewrite rev_unit, (lstrip_nonspace _ _ Hc).
  cbn [rev]. by rewrite rev_involutive.
Qed.

Lemma strip_delimited (body : str) :
  strip (slash :: body ++ [slash]) = slash :: body ++ [slash].
Proof.
  unfold strip. rewrite lstrip_nonspace by done.
  by apply (rstrip_nonspace (slash :: body) slash).
Qed.

(** X5: Normalising is idempotent: a text that is already delimited is left
    as it is, and decodes as before. *)
Theorem normalize_idempotent (text : str) :
  normalize (normalize text) = normalize text /\
  parse_number_string (normalize text) = parse_number_string text.
Proof.
  assert (normalize (normalize text) = normalize text) as Hn.
  { destruct (normalize_delimited text) as [->|[body ->]]; [done|].
    unfold normalize at 1. cbv zeta. rewrite strip_delimited.
    change (startswith_slash (slash :: body ++ [slash])) with true. cbv iota.
    change (slash :: body ++ [slash]) with ((slash :: body) ++ [slash]).
    by rewrite endswith_slash_snoc. }
  split; [done|].
  unfold parse_number_string, slots_of. by rewrite Hn.
Qed.

(** ** Pre-validation along the list *)

Lemma pre_creation_loop_shift (a : ParsedEvent) (l : list ParsedEvent) (range : list nat) :
  pre_creation_loop (a :: l) (map S range) = pre_creation_loop l range.
Proof.
  induction range as [|i range IH]; [done|].
  cbn [map pre_creation_loop]. rewrite IH.
  change (event_at (a :: l) (S i)) with (event_at l i).
  change (event_at (a :: l) (S i + 1)) with (event_at l (i + 1)).
  done.
Qed.

Lemma validate_cons_cons (a b : ParsedEvent) (l : list ParsedEvent) :
  validate_events_pre_creation (a :: b :: l)
  = negb (clash a b) && validate_events_pre_creation (b :: l).
Proof.
  unfold validate_events_pre_creation.
  replace (length (a :: b :: l) - 1)%nat with (S (length l)) by (simpl; lia).
  replace (length (b :: l) - 1)%nat with (length l) by (simpl; lia).
  cbn [seq pre_creation_loop]. rewrite <- fmap_S_seq.
  change (S <$> seq 0 (length l)) with (map S (seq 0 (length l))).
  rewrite pre_creation_loop_shift.
  change (event_at (a :: b :: l) 0) with a.
  change (event_at (a :: b :: l) (0 + 1)) with b.
  unfold clash.
  destruct (p_duration a =? 1), (p_duration b =? 1); simpl; try done.
  by destruct (bool_decide _).
Qed.

(** The index loop checks each pair of neighbours once. *)
Lemma validate_adjacent_ok (parsed_events : list ParsedEvent) :
  validate_events_pre_creation parsed_events = adjacent_ok parsed_events.
Proof.
  induction parsed_events as [|a [|b l] IH]; [done..|].
  rewrite validate_cons_cons, IH. done.
Qed.

(** X7: Pre-validation has nothing to reject in fewer than two events. *)
Theorem validate_short_list (parsed_events : list ParsedEvent) :
  (length parsed_events < 2)%nat ->
  validate_events_pre_creation parsed_events = true.
Proof.
  intros Hlen. destruct parsed_events as [|a [|b l]]; [done..|].
  simpl in Hlen. lia.
Qed.

Lemma validate_short_list_witness :
  validate_events_pre_creation [{| p_notes := [60]; p_duration := 1 |}] = true.
Proof.
  apply (validate_short_list [{| p_notes := [60]; p_duration := 1 |}]).
  simpl. lia.
Defined.

(** X8: Pre-validation of a sequence cut between two neighbours [a] and [b]:
    the part up to [a], the pair, and the part from [b] on are validated
    separately. *)
Theorem validate_compose (before after : list ParsedEvent) (a b : ParsedEvent) :
  validate_events_pre_creation (before ++ a :: b :: after)
  = validate_events_pre_creation (before ++ [a])
    && validate_events_pre_creation [a; b]
    && validate_events_pre_creation (b :: after).
Proof.
  rewrite !validate_adjacent_ok.
  induction before as [|x before IH].
  - cbn [app adjacent_ok]. by rewrite andb_true_r.
  - destruct before as [|y before].
    + cbn [app] in *. cbn [adjacent_ok] in *.
      rewrite andb_true_r in *. by rewrite <- !andb_assoc.
    + cbn [app] in *.
      change (adjacent_ok (x :: y :: before ++ a :: b :: after))
        with (negb (clash x y) && adjacent_ok (y :: before ++ a :: b :: after)).
      change (adjacent_ok (x :: y :: before ++ [a]))
        with (negb (clash x y) && adjacent_ok (y :: before ++ [a])).
      rewrite IH. by rewrite <- !andb_assoc.
Qed.

(** X9: A sequence in which no two neighbours both last exactly one slot
    passes pre-validation, whatever its pitches. *)
Theorem validate_no_adjacent_eighths (parsed_events : list ParsedEvent) :
  (forall (i : nat) (a b : ParsedEvent),
     parsed_events !! i = Some a -> parsed_events !! (i + 1)%nat = Some b ->
     p_duration a <> 1 \/ p_duration b <> 1) ->
  validate_events_pre_creation parsed_events = true.
Proof.
  rewrite validate_adjacent_ok.
  induction parsed_events as [|a [|b l] IH]; intros Hpairs; [done..|].
  change (adjacent_ok (a :: b :: l))
    with (negb (clash a b) && adjacent_ok (b :: l)).
  apply andb_true_iff. split.
  - unfold clash.
    destruct (Hpairs 0%nat a b eq_refl eq_refl) as [Ha|Hb].
    + by destruct (Z.eqb_spec (p_duration a) 1).
    + destruct (Z.eqb_spec (p_duration b) 1); [done|].
      by rewrite andb_false_r.
  - apply IH. intros i x y Hx Hy. by apply (Hpairs (S i) x y).
Qed.

Lemma validate_no_adjacent_eighths_witness :
  validate_events_pre_creation
    [{| p_notes := [60]; p_duration := 2 |};
     {| p_notes := [60]; p_duration := 1 |};
     {| p_notes := [60]; p_duration := 3 |}] = true.
Proof.
  apply (validate_no_adjacent_eighths
           [{| p_notes := [60]; p_duration := 2 |};
            {| p_notes := [60]; p_duration := 1 |};
            {| p_notes := [60]; p_duration := 3 |}]).
  intros i a b Ha Hb.
  destruct i as [|[|i]]; simpl in Ha, Hb.
  - injection Ha as <-. left. simpl. lia.
  - injection Hb as <-. right. simpl. lia.
  - destruct i; discriminate.
Defined.

(** ** Splitting and merging *)

Lemma clef_partition (pitches : list Z) :
  treble_of pitches ++ bass_of pitches ≡ₚ pitches.
Proof.
  unfold treble_of, bass_of.
  induction pitches as [|p pitches IH]; [done|].
  destruct (decide (60 <= p)) as [Hp|Hp].
  - rewrite filter_cons_True by done. rewrite filter_cons_False by lia.
    simpl. by rewrite IH.
  - rewrite filter_cons_False by done. rewrite filter_cons_True by lia.
    rewrite <- Permutation_middle. by rewrite IH.
Qed.

(** X10: Splitting loses and duplicates no pitch: at every index the treble and
    the bass event share the pitches of the decoded event between them, and
    no pitch is in both. *)
Theorem split_partitions_pitches (parsed_events : list ParsedEvent)
    (i : nat) (e : ParsedEvent) :
  parsed_events !! i = Some e ->
  exists treble bass : Event,
    treble_events_raw parsed_events !! i = Some treble /\
    bass_events_raw parsed_events !! i = Some bass /\
    notes treble ++ notes bass ≡ₚ p_notes e /\
    (length (notes treble) + length (notes bass) = length (p_notes e))%nat /\
    forall p, p ∈ notes treble -> p ∉ notes bass.
Proof.
  intros Hi. destruct (split_events_lookup _ _ _ Hi) as [Ht Hb].
  eexists _, _. split; [exact Ht|]. split; [exact Hb|]. simpl.
  split; [apply clef_partition|]. split.
  - rewrite <- length_app. by rewrite clef_partition.
  - intros p. unfold treble_of, bass_of. rewrite !list_elem_of_filter. lia.
Qed.

Lemma split_partitions_pitches_witness :
  exists treble bass : Event,
    treble_events_raw [{| p_notes := [65; 55; 60]; p_duration := 1 |}] !! 0%nat
    = Some treble /\
    bass_events_raw [{| p_notes := [65; 55; 60]; p_duration := 1 |}] !! 0%nat
    = Some bass /\
    notes treble ++ notes bass ≡ₚ [65; 55; 60] /\
    (length (notes treble) + length (notes bass) = 3)%nat /\
    forall p, p ∈ notes treble -> p ∉ notes bass.
Proof.
  apply (split_partitions_pitches
           [{| p_notes := [65; 55; 60]; p_duration := 1 |}] 0%nat
           {| p_notes := [65; 55; 60]; p_duration := 1 |}).
  reflexivity.
Defined.

Lemma split_events_clef (parsed_events : list ParsedEvent) :
  Forall clef_event (treble_events_raw parsed_events) /\
  Forall clef_event (bass_events_raw parsed_events).
Proof.
  destruct (split_events_length parsed_events) as [Ht Hb].
  split; apply Forall_lookup; intros i x Hx;
    (destruct (lookup_lt_is_Some_2 parsed_events i) as [e He];
     [apply lookup_lt_Some in Hx; lia|]);
    destruct (split_events_lookup _ _ _ He) as [Hti Hbi];
    rewrite ?Hti, ?Hbi in Hx; injection Hx as <-; unfold clef_event; simpl.
  - destruct (treble_of (p_notes e)); simpl; [by right | by left].
  - destruct (bass_of (p_notes e)); simpl; [by right | by left].
Qed.

Lemma merge_shape (raw : list Event) :
  Forall clef_event raw ->
  exists rests notes_ : list Event,
    merge_sustain_events raw = rests ++ notes_ /\
    Forall (λ e, type e = Rest) rests /\
    Forall (λ e, type e = Note /\ notes e <> []) notes_ /\
    (notes_ = [] <-> Forall (λ e, type e = Sustain) raw).
Proof.
  induction raw as [|e raw IH] using rev_ind.
  - intros _. exists [], []. by repeat split.
  - intros Hraw. apply Forall_app in Hraw as [Hall He].
    rewrite Forall_singleton in He.
    destruct (IH Hall) as (rests & ns & Hm & Hrests & Hns & Hnil).
    rewrite merge_snoc, Hm.
    destruct He as [[Hn Hne]|[Hs _]].
    + rewrite (merge_event_note _ _ Hn).
      exists rests, (ns ++ [e]). rewrite <- app_assoc.
      split; [done|]. split; [done|]. split.
      * apply Forall_app. split; [done|]. by apply Forall_singleton.
      * split; [by destruct ns|].
        intros Hs. apply Forall_app in Hs as [_ Hs].
        rewrite Forall_singleton in Hs. congruence.
    + destruct (snoc_or_nil ns) as [->|(ns' & n & ->)].
      * rewrite app_nil_r.
        exists (rests ++ [rest_of e]), []. rewrite app_nil_r.
        split.
        { destruct (snoc_or_nil rests) as [->|(rs & r & ->)].
          - by apply merge_event_sustain_first.
          - apply Forall_app in Hrests as [_ Hr].
            rewrite Forall_singleton in Hr.
            rewrite (merge_event_sustain_rest _ r e Hs) by congruence.
            by rewrite <- app_assoc. }
        split; [apply Forall_app; split; [done | by apply Forall_singleton]|].
        split; [done|]. split; [|done]. intros _.
        apply Forall_app. split; [by apply Hnil | by apply Forall_singleton].
      * apply Forall_app in Hns as [Hns' Hn].
        rewrite Forall_singleton in Hn. destruct Hn as [Hn Hne].
        rewrite app_assoc, (merge_event_sustain_note _ n e Hs Hn).
        exists rests, (ns' ++ [extended (duration e) n]).
        rewrite <- app_assoc. split; [done|]. split; [done|]. split.
        -- apply Forall_app. split; [done|]. by apply Forall_singleton.
        -- split; [by destruct ns'|].
           intros Hsus. apply Forall_app in Hsus as [Hsus _].
           apply Hnil in Hsus. by destruct ns'.
Qed.

(** X11: The shape of a merged sequence: rests, then notes.  No sustain is
    left, and no rest follows a note; there is a note exactly when the raw
    sequence is not all sustains. *)
Theorem merge_rests_then_notes (raw : list Event) :
  Forall clef_event raw ->
  exists rests notes_ : list Event,
    merge_sustain_events raw = rests ++ notes_ /\
    Forall (λ e, type e = Rest) rests /\
    Forall (λ e, type e = Note /\ notes e <> []) notes_ /\
    (notes_ = [] <-> Forall (λ e, type e = Sustain) raw).
Proof. apply merge_shape. Qed.

Lemma merge_rests_then_notes_witness :
  exists rests notes_ : list Event,
    merge_sustain_events
      [sustain_for 1; {| type := Note; notes := [60]; duration := 1 |};
       sustain_for 2] = rests ++ notes_ /\
    Forall (λ e, type e = Rest) rests /\
    Forall (λ e, type e = Note /\ notes e <> []) notes_ /\
    (notes_ = [] <->
     Forall (λ e, type e = Sustain)
       [sustain_for 1; {| type := Note; notes := [60]; duration := 1 |};
        sustain_for 2]).
Proof.
  apply (merge_rests_then_notes
           [sustain_for 1; {| type := Note; notes := [60]; duration := 1 |};
            sustain_for 2]).
  apply Forall_cons_2; [right; split; reflexivity|].
  apply Forall_cons_2; [left; split; [reflexivity | discriminate]|].
  apply Forall_cons_2; [right; split; reflexivity|].
  apply Forall_nil_2.
Defined.

Lemma chords_snoc (events : list Event) (e : Event) :
  chords (events ++ [e])
  = chords events ++ (if decide (type e = Note) then [notes e] else []).
Proof.
  unfold chords. rewrite filter_app, map_app. f_equal.
  destruct (decide (type e = Note)) as [Hn|Hn].
  - by rewrite filter_cons_True.
  - by rewrite filter_cons_False.
Qed.

Lemma chords_merge (raw : list Event) :
  chords (merge_sustain_events raw) = chords raw.
Proof.
  induction raw as [|e raw IH] using rev_ind; [done|].
  rewrite merge_snoc, (chords_snoc raw), <- IH.
  unfold merge_event. destruct (type e) eqn:He.
  - rewrite chords_snoc, He. done.
  - rewrite decide_False by done. rewrite app_nil_r.
    destruct (snoc_or_nil (merge_sustain_events raw)) as [->|(ms & m & ->)];
      [done|].
    rewrite last_snoc. destruct m as [[] ns d].
    + rewrite extend_last_snoc, !chords_snoc. done.
    + rewrite (chords_snoc (ms ++ _)). simpl. by rewrite app_nil_r.
    + rewrite (chords_snoc (ms ++ _)). simpl. by rewrite app_nil_r.
  - rewrite decide_False by done. by rewrite app_nil_r.
Qed.

(** X12: Merging keeps the chords: every note of the raw sequence is a note of
    the merged sequence, with the same pitches in the same order, and no
    other note appears. *)
Theorem merge_keeps_chords (raw : list Event) :
  map notes (filter (λ e, type e = Note) (merge_sustain_events raw))
  = map notes (filter (λ e, type e = Note) raw).
Proof. apply chords_merge. Qed.

Lemma merge_durations (P : Z -> Prop) (raw : list Event) :
  (forall a b, P a -> P b -> P (a + b)) ->
  Forall (λ e, P (duration e)) raw ->
  Forall (λ e, P (duration e)) (merge_sustain_events raw).
Proof.
  intros Hadd. induction raw as [|e raw IH] using rev_ind; [done|].
  intros Hraw. apply Forall_app in Hraw as [Hall He].
  rewrite Forall_singleton in He. specialize (IH Hall).
  rewrite merge_snoc. unfold merge_event. destruct (type e); [| |done].
  - apply Forall_app. split; [done | by apply Forall_singleton].
  - destruct (snoc_or_nil (merge_sustain_events raw)) as [->|(ms & m & Hm)].
    + by apply Forall_singleton.
    + rewrite Hm in *. rewrite last_snoc.
      apply Forall_app in IH as [IHms IHm]. rewrite Forall_singleton in IHm.
      destruct m as [[] ns d]; simpl in IHm.
      * rewrite extend_last_snoc. apply Forall_app. split; [done|].
        apply Forall_singleton. simpl. by apply Hadd.
      * apply Forall_app. split; [|by apply Forall_singleton].
        apply Forall_app. split; [done | by apply Forall_singleton].
      * apply Forall_app. split; [|by apply Forall_singleton].
        apply Forall_app. split; [done | by apply Forall_singleton].
Qed.

Lemma merge_shape_merged (raw : list Event) :
  Forall clef_event raw -> Forall merged_event (merge_sustain_events raw).
Proof.
  intros Hraw. destruct (merge_shape raw Hraw) as (rs & ns & -> & Hrs & Hns & _).
  apply Forall_app. split.
  - eapply Forall_impl; [exact Hrs|]. intros e He. by left.
  - eapply Forall_impl; [exact Hns|]. intros e He. by right.
Qed.

(** ** create_midi_file as a whole *)

(** The two tracks that [create_midi_file] writes. *)
Lemma create_midi_file_tracks (parsed_events : list ParsedEvent) (tpb : Z) :
  create_midi_file parsed_events tpb
  = Some {| ticks_per_beat := 480;
            tracks :=
              [MetaMessage (set_tempo 400000) 0
               :: encode 240 0
                    (merge_sustain_events (treble_events_raw parsed_events));
               encode 240 0
                 (merge_sustain_events (bass_events_raw parsed_events))] |}.
Proof.
  destruct (split_events_clef parsed_events) as [Ht Hb].
  apply merge_shape_merged in Ht, Hb.
  unfold create_midi_file. cbv zeta.
  by rewrite !write_track_encode.
Qed.


















Lemma encode_delta_times (pending : Z) (events : list Event) :
  Forall (λ e, 0 <= duration e) events -> 0 <= pending ->
  Forall (λ msg, 0 <= time msg) (encode 240 pending events).
Proof.
  intros Hd. revert pending.
  induction Hd as [|e events He Hall IH]; intros pending Hp; [constructor|].
  cbn [encode]. destruct (type e).
  - repeat (apply Forall_app; split); [| |by apply IH].
    + destruct (notes e) as [|first others]; [constructor|].
      apply Forall_cons_2; [done|]. apply Forall_forall. intros m Hm.
      apply list_elem_of_fmap in Hm as (p & -> & _). done.
    + destruct (notes e) as [|first others]; [constructor|].
      apply Forall_cons_2; [simpl; lia|]. apply Forall_forall. intros m Hm.
      apply list_elem_of_fmap in Hm as (p & -> & _). done.
  - by apply IH.
  - apply IH. lia.
Qed.

Lemma split_durations (P : Z -> Prop) (parsed_events : list ParsedEvent) :
  Forall (λ e, P (p_duration e)) parsed_events ->
  Forall (λ e, P (duration e)) (treble_events_raw parsed_events) /\
  Forall (λ e, P (duration e)) (bass_events_raw parsed_events).
Proof.
  intros Hd. destruct (split_events_length parsed_events) as [Ht Hb].
  rewrite Forall_lookup in Hd.
  split; apply Forall_lookup; intros i x Hx;
    (destruct (lookup_lt_is_Some_2 parsed_events i) as [e He];
     [apply lookup_lt_Some in Hx; lia|]);
    destruct (split_events_lookup _ _ _ He) as [Hti Hbi];
    rewrite ?Hti, ?Hbi in Hx; injection Hx as <-; simpl; by apply (Hd i).
Qed.

(** X16: The encoder never writes a negative delta-time for events whose
    durations are not negative, so every message can be stored in the
    file. *)
Theorem create_midi_file_delta_times (parsed_events : list ParsedEvent) (tpb : Z) :
  Forall (λ e, 0 <= p_duration e) parsed_events ->
  exists mid : MidiFile,
    create_midi_file parsed_events tpb = Some mid /\
    Forall (Forall (λ msg, 0 <= time msg)) (tracks mid).
Proof.
  intros Hd. eexists. split; [apply create_midi_file_tracks|].
  destruct (split_durations (λ d, 0 <= d) _ Hd) as [Ht Hb].
  apply (merge_durations (λ d, 0 <= d)) in Ht, Hb; try (intros; lia).
  cbn [tracks].
  apply Forall_cons_2; [|apply Forall_cons_2; [|constructor]].
  - apply Forall_cons_2; [done|]. by apply encode_delta_times.
  - by apply encode_delta_times.
Qed.

Lemma create_midi_file_delta_times_witness :
  exists mid : MidiFile,
    create_midi_file
      [{| p_notes := [65]; p_duration := 1 |};
       {| p_notes := [55]; p_duration := 2 |}] 480 = Some mid /\
    Forall (Forall (λ msg, 0 <= time msg)) (tracks mid).
Proof.
  apply (create_midi_file_delta_times
           [{| p_notes := [65]; p_duration := 1 |};
            {| p_notes := [55]; p_duration := 2 |}] 480).
  apply Forall_cons_2; [simpl; lia|].
  apply Forall_cons_2; [simpl; lia|].
  apply Forall_nil_2.
Defined.

(** ** The post-validator on tracks *)

Lemma replay_tracks_app (tpb : Z) (ts1 ts2 : list MidiTrack) :
  replay_tracks tpb (ts1 ++ ts2)
  = replay_tracks tpb ts1 && replay_tracks tpb ts2.
Proof.
  induction ts1 as [|track ts1 IH]; [done|].
  simpl. by destruct (replay_track tpb replay_start track).
Qed.

(** X17: The tracks of a file are validated independently of each other: a file
    passes exactly when the files of its first tracks and of its last tracks
    both pass. *)
Theorem validate_tracks_independent (tpb : Z) (ts1 ts2 : list MidiTrack) :
  validate_midi_post_creation
    (Some {| ticks_per_beat := tpb; tracks := ts1 ++ ts2 |})
  = validate_midi_post_creation
      (Some {| ticks_per_beat := tpb; tracks := ts1 |})
    && validate_midi_post_creation
         (Some {| ticks_per_beat := tpb; tracks := ts2 |}).
Proof. apply replay_tracks_app. Qed.

Lemma replay_meta_zero (tpb : Z) (st : Replay) (ty : MetaType) :
  replay_msg tpb st (MetaMessage ty 0) = Some st.
Proof. destruct st as [on off t]. simpl. by rewrite Z.add_0_r. Qed.

Lemma replay_track_meta_zero (tpb : Z) (st : Replay) (ty : MetaType)
    (before after : MidiTrack) :
  replay_track tpb st (before ++ MetaMessage ty 0 :: after)
  = replay_track tpb st (before ++ after).
Proof.
  rewrite !replay_track_app.
  destruct (replay_track tpb st before) as [st'|]; [|done].
  cbn [replay_track]. by rewrite replay_meta_zero.
Qed.

(** X18: A meta message with delta-time 0, such as the tempo at the start of
    the treble track or the end-of-track marker, has no influence on the
    verdict, wherever it stands in a track. *)
Theorem validate_ignores_meta (tpb : Z) (ts1 ts2 : list MidiTrack)
    (before after : MidiTrack) (ty : MetaType) :
  validate_midi_post_creation
    (Some {| ticks_per_beat := tpb;
             tracks := ts1 ++ (before ++ MetaMessage ty 0 :: after) :: ts2 |})
  = validate_midi_post_creation
      (Some {| ticks_per_beat := tpb;
               tracks := ts1 ++ (before ++ after) :: ts2 |}).
Proof.
  cbn [validate_midi_post_creation ticks_per_beat tracks].
  rewrite !replay_tracks_app. cbn [replay_tracks].
  by rewrite replay_track_meta_zero.
Qed.

(** ** The inverse table *)

Lemma inverse_table_items :
  MIDI_TO_NUMBER_MAP
  = list_to_map (map (λ item : str * Z, (item.2, item.1)) NUMBER_TO_MIDI_ITEMS).
Proof. by vm_compute. Qed.

Lemma table_keys_nodup : NoDup NUMBER_TO_MIDI_ITEMS.*1.
Proof. apply (bool_decide_unpack _). by vm_compute. Qed.

Lemma table_values_nodup :
  NoDup (map (λ item : str * Z, (item.2, item.1)) NUMBER_TO_MIDI_ITEMS).*1.
Proof. apply (bool_decide_unpack _). by vm_compute. Qed.

(** X20: The inverse table that pre-validation builds is a true inverse: no two
    degrees share a pitch, so a pitch is mapped back to a degree exactly
    when that degree is mapped to the pitch. *)
Theorem inverse_table_round_trip (k : str) (p : Z) :
  MIDI_TO_NUMBER_MAP !! p = Some k <-> NUMBER_TO_MIDI_MAP !! k = Some p.
Proof.
  rewrite inverse_table_items. unfold NUMBER_TO_MIDI_MAP.
  rewrite <- (elem_of_list_to_map _ _ _ table_values_nodup).
  rewrite <- (elem_of_list_to_map _ _ _ table_keys_nodup).
  rewrite list_elem_of_fmap. split.
  - intros ([k' p'] & [= -> ->] & Hin). done.
  - intros Hin. by exists (k, p).
Qed.

(** ** main *)

(** What a run on a text that is not blank comes to. *)
Lemma main_on_text (text : str) :
  whitespace_only text = false ->
  (validate_events_pre_creation (decoded (slots_of text)) = false /\
   main (Some text) = PreValidationFailed) \/
  (validate_events_pre_creation (decoded (slots_of text)) = true /\
   exists mid, create_midi_file (decoded (slots_of text)) 480 = Some mid /\
               main (Some text) = Written mid true).
Proof.
  intros Hw. unfold main.
  rewrite truthy_strip, Hw, parse_number_string_decoded. simpl negb. cbv iota.
  destruct (validate_events_pre_creation (decoded (slots_of text))) eqn:Hpre;
    simpl negb; cbv iota.
  - right. split; [done|].
    destruct (create_midi_file_passes (decoded (slots_of text)) 480
                (decoded_durations _)) as (mid & -> & _ & _ & -> & _).
    by exists mid.
  - left. done.
Qed.

Lemma main_on_blank (text : str) :
  whitespace_only text = true -> main (Some text) = EmptyInput.
Proof. intros Hw. unfold main. by rewrite truthy_strip, Hw. Qed.

(** X21: A run ends with the empty-input warning exactly when the text is
    whitespace only; no other text leaves by that exit. *)
Theorem main_empty_input (text : str) :
  main (Some text) = EmptyInput <-> whitespace_only text = true.
Proof.
  split; [|apply main_on_blank].
  intros Hmain. destruct (whitespace_only text) eqn:Hw; [done|].
  destruct (main_on_text text Hw) as [[_ Hm]|[_ (mid & _ & Hm)]];
    congruence.
Qed.



(** ** Leading empty slots *)

Lemma lstrip_app (a b : str) :
  whitespace_only a = false -> lstrip (a ++ b) = lstrip a ++ b.
Proof.
  unfold whitespace_only. induction a as [|c a IH]; simpl; [done|].
  destruct (isspace c); simpl; [exact IH | done].
Qed.

Lemma rstrip_app (x y : str) :
  whitespace_only y = false -> rstrip (x ++ y) = x ++ rstrip y.
Proof.
  intros Hy. unfold rstrip. rewrite rev_app_distr.
  rewrite lstrip_app by (by rewrite whitespace_only_rev).
  by rewrite rev_app_distr, rev_involutive.
Qed.

Lemma lstrip_suffix (s : str) : exists w, s = w ++ lstrip s.
Proof.
  induction s as [|c s [w IH]]; [by exists []|]. simpl.
  destruct (isspace c).
  - exists (c :: w). simpl. by f_equal.
  - by exists [].
Qed.

Lemma rstrip_delimiter (rest : str) :
  exists r, rstrip (slash :: rest) = slash :: r.
Proof.
  destruct (lstrip_suffix (rev (slash :: rest))) as [w Hw].
  apply (f_equal (@rev char)) in Hw.
  rewrite rev_involutive, rev_app_distr in Hw.
  fold (rstrip (slash :: rest)) in Hw.
  destruct (rstrip (slash :: rest)) as [|c r] eqn:Hr.
  - exfalso. unfold rstrip in Hr.
    apply (f_equal (@rev char)) in Hr. rewrite rev_involutive in Hr.
    simpl in Hr. apply lstrip_nil in Hr.
    unfold whitespace_only in Hr.
    rewrite forallb_app in Hr. simpl in Hr.
    by rewrite andb_false_r in Hr.
  - simpl in Hw. injection Hw as <- _. by exists r.
Qed.

Lemma endswith_slash_app (x y : str) :
  y <> [] -> endswith_slash (x ++ y) = endswith_slash y.
Proof.
  intros Hy. unfold endswith_slash.
  destruct (snoc_or_nil y) as [->|(y' & c & ->)]; [done|].
  by rewrite app_assoc, !last_snoc.
Qed.

Lemma split_app_sep (sep : char) (b s : str) :
  Forall (λ c, c <> sep) b -> split sep (b ++ sep :: s) = b :: split sep s.
Proof.
  intros Hb. induction Hb as [|c b Hc Hb IH]; simpl.
  - by rewrite N.eqb_refl.
  - rewrite IH. by destruct (N.eqb_spec c sep).
Qed.

Lemma whitespace_only_no_slash (b : str) :
  whitespace_only b = true -> Forall (λ c, c <> slash) b.
Proof.
  unfold whitespace_only. intros Hb. apply Forall_forall. intros c Hc ->.
  rewrite forallb_forall in Hb.
  apply list_elem_of_In in Hc. by apply Hb in Hc.
Qed.

(** The slots of a text whose first slot is [blank]. *)
Lemma slots_of_leading_slot (blank rest : str) :
  Forall (λ c, c <> slash) blank ->
  exists tail : list str,
    tail <> [] /\
    slots_of (slash :: rest) = [] :: tail /\
    slots_of (slash :: blank ++ slash :: rest) = [] :: blank :: tail.
Proof.
  intros Hb. destruct (rstrip_delimiter rest) as [r Hr].
  assert (strip (slash :: rest) = slash :: r) as Hs2.
  { unfold strip. by rewrite lstrip_nonspace. }
  assert (strip (slash :: blank ++ slash :: rest) = slash :: blank ++ slash :: r)
    as Hs1.
  { unfold strip. rewrite lstrip_nonspace by done.
    change (slash :: blank ++ slash :: rest)
      with ((slash :: blank) ++ slash :: rest).
    rewrite rstrip_app by done. by rewrite Hr. }
  assert (endswith_slash (slash :: blank ++ slash :: r)
          = endswith_slash (slash :: r)) as He1.
  { by apply (endswith_slash_app (slash :: blank) (slash :: r)). }
  assert (exists n, normalize (slash :: rest) = slash :: n /\
                    normalize (slash :: blank ++ slash :: rest)
                    = slash :: blank ++ slash :: n) as (n & Hn2 & Hn1).
  { unfold normalize. cbv zeta. rewrite Hs1, Hs2.
    change (startswith_slash (slash :: r)) with true.
    change (startswith_slash (slash :: blank ++ slash :: r)) with true.
    cbv iota. rewrite He1.
    destruct (endswith_slash (slash :: r)).
    - by exists r.
    - exists (r ++ [slash]). split; [done|]. simpl.
      by rewrite <- app_assoc. }
  exists (split slash n). split; [apply split_nonempty|].
  unfold slots_of. rewrite Hn1, Hn2.
  cbn [split]. rewrite N.eqb_refl.
  by rewrite (split_app_sep _ _ _ Hb).
Qed.

Lemma following_leading_empty (blank : str) (tail : list str) (i : nat) :
  tail <> [] ->
  following ([] :: blank :: tail) (S i) = following ([] :: tail) i.
Proof.
  intros Ht. unfold following.
  destruct tail as [|x tail]; [done|]. simpl. done.
Qed.

Lemma decoded_leading_slot (blank : str) (tail : list str) :
  chord_notes (strip blank) = [] -> tail <> [] ->
  decoded ([] :: blank :: tail) = decoded ([] :: tail).
Proof.
  intros Hb Ht. unfold decoded.
  assert (exists m, (@length str ([] :: blank :: tail) - 2)%nat = S m /\
                    (@length str ([] :: tail) - 2)%nat = m) as (m & -> & ->).
  { destruct tail as [|x tl]; [done|]. exists (length tl).
    split; simpl; by rewrite ?Nat.sub_0_r. }
  cbn [seq]. rewrite filter_cons_False.
  2: { unfold chord_slot, slot. simpl. rewrite Hb, andb_false_r.
       discriminate. }
  rewrite <- fmap_S_seq.
  assert (Forall (λ i, 1 <= i)%nat (seq 1 m)) as Hseq.
  { apply Forall_forall. intros i Hi. apply elem_of_seq in Hi. lia. }
  induction Hseq as [|i l Hi Hall IH]; [done|].
  rewrite fmap_cons.
  assert (slot ([] :: blank :: tail) (S i) = slot ([] :: tail) i) as Hslot.
  { unfold slot. destruct i; [lia | done]. }
  assert (chord_slot ([] :: blank :: tail) (S i) = chord_slot ([] :: tail) i)
    as Hchord.
  { unfold chord_slot. by rewrite Hslot. }
  assert (decoded_at ([] :: blank :: tail) (S i) = decoded_at ([] :: tail) i)
    as Hat.
  { unfold decoded_at, trailing_empty.
    by rewrite Hslot, following_leading_empty. }
  destruct (chord_slot ([] :: tail) i) eqn:Hc.
  - rewrite !filter_cons_True by congruence. simpl. by rewrite Hat, IH.
  - rewrite !filter_cons_False by congruence. exact IH.
Qed.

Lemma parse_leading_slot (first rest : str) :
  Forall (λ c, c <> slash) first -> chord_notes (strip first) = [] ->
  parse_number_string (slash :: first ++ slash :: rest)
  = parse_number_string (slash :: rest).
Proof.
  intros Hslash Hnotes.
  destruct (slots_of_leading_slot first rest Hslash) as (tail & Ht & Hs2 & Hs1).
  rewrite !parse_number_string_decoded, Hs1, Hs2.
  by rewrite decoded_leading_slot.
Qed.

(** X6: A first slot without a valid pitch is dropped, and the slots it would
    have held with it: the text decodes to the same events as without that
    slot.  This holds for an empty first slot, so silence before the first
    chord is not represented, and for a first slot of invalid tokens. *)
Theorem parse_leading_slot_dropped :
  (forall blank rest : str,
     whitespace_only blank = true ->
     parse_number_string (slash :: blank ++ slash :: rest)
     = parse_number_string (slash :: rest)) /\
  (forall first rest : str,
     Forall (λ c, c <> slash) first -> chord_notes (strip first) = [] ->
     parse_number_string (slash :: first ++ slash :: rest)
     = parse_number_string (slash :: rest)).
Proof.
  split; [|exact parse_leading_slot].
  intros blank rest Hb. apply parse_leading_slot.
  - by apply whitespace_only_no_slash.
  - by rewrite (strip_whitespace_only _ Hb).
Qed.

Lemma parse_leading_slot_dropped_witness :
  parse_number_string (slash :: py " " ++ slash :: py "1/")
  = parse_number_string (slash :: py "1/") /\
  parse_number_string (slash :: py "0 x" ++ slash :: py "/1/")
  = parse_number_string (slash :: py "/1/").
Proof.
  destruct parse_leading_slot_dropped as [Hblank Hbad]. split.
  - apply (Hblank (py " ") (py "1/")). reflexivity.
  - apply (Hbad (py "0 x") (py "/1/")).
    + apply Forall_cons_2; [discriminate|].
      apply Forall_cons_2; [discriminate|].
      apply Forall_cons_2; [discriminate|]. apply Forall_nil_2.
    + vm_compute. reflexivity.
Defined.

(** ** A failed replay stays failed *)

(** X19: Once the replay of a track has met a re-trigger, no later message
    repairs it: a file with a track that fails on its first messages fails,
    and every beginning of a track of a passing file passes. *)
Theorem validate_failure_is_final (tpb : Z) (ts1 ts2 : list MidiTrack)
    (track more : MidiTrack) :
  validate_midi_post_creation
    (Some {| ticks_per_beat := tpb; tracks := ts1 ++ track :: ts2 |}) = false ->
  validate_midi_post_creation
    (Some {| ticks_per_beat := tpb; tracks := ts1 ++ (track ++ more) :: ts2 |})
  = false.
Proof.
  cbn [validate_midi_post_creation ticks_per_beat tracks].
  rewrite !replay_tracks_app. cbn [replay_tracks]. rewrite replay_track_app.
  destruct (replay_tracks tpb ts1); [|done]. simpl.
  destruct (replay_track tpb replay_start track) as [st|]; [|done].
  destruct (replay_tracks tpb ts2); [done|].
  intros _. by destruct (replay_track tpb st more).
Qed.

Lemma validate_failure_is_final_witness :
  validate_midi_post_creation
    (Some {| ticks_per_beat := 480;
             tracks := [] ++ ([note_on 60 80 0; note_off 60 80 100;
                               note_on 60 80 100]
                              ++ [note_off 60 80 480]) :: [] |}) = false.
Proof.
  apply (validate_failure_is_final 480 []
           [] [note_on 60 80 0; note_off 60 80 100; note_on 60 80 100]
           [note_off 60 80 480]).
  vm_compute. reflexivity.
Defined.
